(** * BG-Wordle: the guess engine of [WordleGame.js]

    A shallow embedding of the class [WordleGame] (src/WordleGame.js) with
    the configuration of src/config.js, and the properties of its guess
    evaluation, scoring and round life cycle.

    Modelling conventions.
    - A JavaScript string is the list of its UTF-16 code units.  The
      controller (WordleUIController) forwards to [pressKey] only keys that
      match [/^[а-яА-Я]$/], so a tile holds one code unit.
    - DOM elements held in arrays ([#tiles], [#keys]) are addressed by their
      index in the array; a filtered array of elements is the list of the
      indices it keeps.
    - Animations and alerts are presentation: what the engine requests is
      appended to [trace].  The callbacks of one [submitGuess] run in the
      order of their timers: the flips from the first active tile to the
      last, then [#checkWinLose].
    - A callback runs to completion before the next one starts.  The
      functions [submitGuess] and [checkWinLose] compose the callbacks of
      one submission as they follow each other when nothing else is
      handled between them; [submitGuessStart], [flipTile], [checked] and
      [fire] are the callbacks one by one, for the sessions in which keys
      are handled between the flips and [#checkWinLose] or during the
      dance of a won round.
    - [Math.random] is an input: the index it selects is an argument. *)

From Stdlib Require Import ZArith Lia.
From stdpp Require Import list strings pretty gmap.

Abbreviation letter := N (only parsing).
Abbreviation word := (list N) (only parsing).

(** ** Data *)

(** A tile of the grid: its text and its [dataset.letter] and
    [dataset.state] ([None] is an absent data attribute). *)
Record Tile := mkTile {
  textContent : word;
  dataset_letter : option letter;
  dataset_state : option string }.

(** A key of the keyboard: [dataset.key] and the tokens of its class list. *)
Record Key := mkKey {
  dataset_key : word;
  classList : list string }.

(** The two named children of the scoreboard ([None]: no such child). *)
Record Scoreboard := mkScoreboard {
  score_item : option string;
  highscore_item : option string }.

(** An alert is recorded by its template and the values substituted. *)
Inductive Message :=
| NotEnoughLetters
| NoSuchWord
| Win (reward : Z)
| Lose (target : word) (penalty : Z).

Inductive Event :=
| Alert (message : Message) (duration : Z)
| Animation (animation : string) (items : list nat) (delay : Z).

Record State := mkState {
  tiles : list Tile;
  keys : list Key;
  targetWord : word;
  score : Z;
  highscore : Z;
  scoreboard : Scoreboard;
  localStorage : option string;   (* item 'bg-wordle-highscore' *)
  trace : list Event }.

(** src/config.js (the templates are carried by [Message]). *)
Record Config := mkConfig {
  wordLength : nat;
  girdLength : nat;
  score_reward : Z;
  score_penalty : Z;
  delays_betweenFlips : Z;
  delays_betweenJumps : Z;
  alert_rewardDuration : Z;
  alert_penaltyDuration : Z }.

Definition config : Config := {|
  wordLength := 5;
  girdLength := 30;
  score_reward := 2;
  score_penalty := 1;
  delays_betweenFlips := 250;
  delays_betweenJumps := 50;
  alert_rewardDuration := 2000;
  alert_penaltyDuration := 2000 |}.

Definition templates_score : string := "Резултат: ".
Definition templates_highscore : string := "Най-добър резултат: ".

(** Field updates. *)
Definition set_tiles (ts : list Tile) (s : State) : State :=
  mkState ts (keys s) (targetWord s) (score s) (highscore s)
          (scoreboard s) (localStorage s) (trace s).
Definition set_keys (ks : list Key) (s : State) : State :=
  mkState (tiles s) ks (targetWord s) (score s) (highscore s)
          (scoreboard s) (localStorage s) (trace s).
Definition set_targetWord (w : word) (s : State) : State :=
  mkState (tiles s) (keys s) w (score s) (highscore s)
          (scoreboard s) (localStorage s) (trace s).
Definition set_score (z : Z) (s : State) : State :=
  mkState (tiles s) (keys s) (targetWord s) z (highscore s)
          (scoreboard s) (localStorage s) (trace s).
Definition set_highscore (z : Z) (s : State) : State :=
  mkState (tiles s) (keys s) (targetWord s) (score s) z
          (scoreboard s) (localStorage s) (trace s).
Definition set_scoreboard (b : Scoreboard) (s : State) : State :=
  mkState (tiles s) (keys s) (targetWord s) (score s) (highscore s)
          b (localStorage s) (trace s).
Definition set_localStorage (v : option string) (s : State) : State :=
  mkState (tiles s) (keys s) (targetWord s) (score s) (highscore s)
          (scoreboard s) v (trace s).
Definition emit (e : Event) (s : State) : State :=
  mkState (tiles s) (keys s) (targetWord s) (score s) (highscore s)
          (scoreboard s) (localStorage s) (trace s ++ [e]).

(** ** Array helpers *)

(** [array.filter(p)] on an array of elements: the indices kept. *)
Fixpoint filterFrom {A} (p : A → bool) (i : nat) (l : list A) : list nat :=
  match l with
  | [] => []
  | x :: l' => if p x then i :: filterFrom p (S i) l' else filterFrom p (S i) l'
  end.
Definition filterIdx {A} (p : A → bool) (l : list A) : list nat :=
  filterFrom p 0 l.

(** [array.find(p)]: the index of the first element that satisfies [p]. *)
Fixpoint findIdx {A} (p : A → bool) (l : list A) : option nat :=
  match l with
  | [] => None
  | x :: l' => if p x then Some 0 else S <$> findIdx p l'
  end.

(** [array.findLast(p)]. *)
Fixpoint findLastIdx {A} (p : A → bool) (l : list A) : option nat :=
  match l with
  | [] => None
  | x :: l' =>
      match findLastIdx p l' with
      | Some i => Some (S i)
      | None => if p x then Some 0 else None
      end
  end.

(** ** Tiles and keys *)

Definition isActive (t : Tile) : bool :=
  match dataset_state t with
  | Some st => String.eqb st "active-spot"
  | None => false
  end.

(** [isNil(tile.dataset.letter)] and [isString(tile.dataset.letter)]. *)
Definition letterIsNil (t : Tile) : bool :=
  match dataset_letter t with Some _ => false | None => true end.
Definition letterIsString (t : Tile) : bool :=
  match dataset_letter t with Some _ => true | None => false end.

(** [#setTile] and [#resetTile] on the element. *)
Definition setTile (key : letter) (t : Tile) : Tile :=
  {| textContent := [key];
     dataset_letter := Some key;
     dataset_state := Some "active-spot" |}.

Definition resetTile (t : Tile) : Tile :=
  {| textContent := []; dataset_letter := None; dataset_state := None |}.

Definition alterTile (f : Tile → Tile) (i : nat) (s : State) : State :=
  set_tiles (alter f i (tiles s)) s.

(** [classList.add(token)]: a token list holds a token once. *)
Definition classList_add (token : string) (cl : list string) : list string :=
  if existsb (String.eqb token) cl then cl else cl ++ [token].

Definition key_add (token : string) (k : Key) : Key :=
  {| dataset_key := dataset_key k;
     classList := classList_add token (classList k) |}.

(** [key.className = 'key']. *)
Definition key_reset (k : Key) : Key :=
  {| dataset_key := dataset_key k; classList := ["key"] |}.

Definition word_eqb (a b : word) : bool := bool_decide (a = b).

(** [String.prototype.toLocaleUpperCase] on the keys the controller
    forwards: а..я (U+0430..U+044F) go to А..Я, А..Я stay.  The other
    strings are outside the model: what is proved of the letter [pressKey]
    stores assumes a key of the controller ([matchesLetter]). *)
Definition toLocaleUpperCase (key : letter) : letter :=
  if ((0x430 <=? key) && (key <=? 0x44F))%N then (key - 0x20)%N else key.

(** The text JavaScript appends for [tile.dataset.letter]: the letter, or
    the code units of "undefined" when the attribute is absent. *)
Definition undefined_text : word :=
  [117; 110; 100; 101; 102; 105; 110; 101; 100]%N.
Definition letterText (t : Tile) : word :=
  match dataset_letter t with Some c => [c] | None => undefined_text end.

(** ** The engine *)

Section Engine.

Variable cfg : Config.
(** src/data/dictionary.js, the array of valid words. *)
Variable dictionary : list word.

(** [#showAlert(message, duration = 1000)]. *)
Definition showAlert (message : Message) (duration : Z) (s : State) : State :=
  emit (Alert message duration) s.

(** [#playAnimation(items, animation, {delay, onComplete})]: the request is
    recorded, then [onComplete(item, index, array)] runs for each item in
    the order of the timers [(index + 1) * delay]. *)
Definition playAnimation (items : list nat) (animation : string) (delay : Z)
    (onComplete : nat → nat → State → State) (s : State) : State :=
  foldl (λ st p, onComplete p.2 p.1 st)
        (emit (Animation animation items delay) s)
        (imap pair items).

Definition noCallback (item index : nat) (s : State) : State := s.

(** The class chosen by the three branches of [#flipTile]. *)
Definition spotOf (target : word) (index : nat) (c : letter) : string :=
  if bool_decide (target !! index = Some c) then "correct-spot"
  else if bool_decide (c ∈ target) then "wrong-spot"
  else "missing-spot".

Definition keyIs (c : letter) (k : Key) : bool := word_eqb (dataset_key k) [c].

Definition withState (st : string) (t : Tile) : Tile :=
  {| textContent := textContent t;
     dataset_letter := dataset_letter t;
     dataset_state := Some st |}.

(** [#flipTile(tile, index)]. *)
Definition flipTile (tile index : nat) (s : State) : State :=
  match tiles s !! tile with
  | None => s
  | Some t =>
      match dataset_letter t with
      | None => s
      | Some c =>
          match findIdx (keyIs c) (keys s) with
          | None => s
          | Some key =>
              let spot := spotOf (targetWord s) index c in
              set_keys (alter (key_add spot) key (keys s))
                       (alterTile (withState spot) tile s)
          end
      end
  end.

(** [#updateScore()]. *)
Definition updateScore (s : State) : State :=
  match score_item (scoreboard s), highscore_item (scoreboard s) with
  | Some _, Some _ =>
      let s1 :=
        if (highscore s <? score s)%Z
        then set_highscore (score s)
               (set_localStorage (Some (pretty (score s))) s)
        else s in
      set_scoreboard
        {| score_item := Some (templates_score +:+ pretty (score s1));
           highscore_item :=
             Some (templates_highscore +:+ pretty (highscore s1)) |} s1
  | _, _ => s
  end.

(** [sampleFromArray(array)] with the index [Math.random] selects. *)
Definition sampleFromArray (array : list word) (r : nat) : word :=
  default [] (array !! r).

(** [#setRandomTargetWord()]. *)
Definition setRandomTargetWord (r : nat) (s : State) : State :=
  set_targetWord (sampleFromArray dictionary r) s.

(** [#initialize()]. *)
Definition initialize (r : nat) (s : State) : State :=
  let s1 := setRandomTargetWord r (updateScore s) in
  set_tiles (resetTile <$> tiles s1) (set_keys (key_reset <$> keys s1) s1).

(** [#checkWinLose(guess, tiles)] run to its end: in a won round, the
    [#initialize()] after the awaited dance included ([checked] stops at
    the dance). *)
Definition checkWinLose (guess : word) (row : list nat) (r : nat)
    (s : State) : State :=
  if word_eqb guess (targetWord s) then
    let s1 := set_score (score s + score_reward cfg) s in
    let s2 := showAlert (Win (score_reward cfg)) (alert_rewardDuration cfg) s1 in
    let s3 := playAnimation row "dance" (delays_betweenJumps cfg) noCallback s2 in
    initialize r s3
  else if forallb letterIsString (tiles s) then
    let s1 := if (0 <? score s)%Z
              then set_score (score s - score_penalty cfg) s else s in
    let s2 := showAlert (Lose (targetWord s1) (score_penalty cfg))
                        (alert_penaltyDuration cfg) s1 in
    initialize r s2
  else s.

Definition activeTiles (s : State) : list nat := filterIdx isActive (tiles s).

(** [activeTiles.reduce((word, tile) => word + tile.dataset.letter, '')]. *)
Definition guessedWord (s : State) : word :=
  foldl (λ w tile, w ++ from_option letterText [] (tiles s !! tile))
        [] (activeTiles s).

Definition flipTiles (s : State) : State :=
  playAnimation (activeTiles s) "flip" (delays_betweenFlips cfg) flipTile s.

(** [submitGuess()] followed, with nothing handled in between, by the
    [#checkWinLose] its last flip defers; [r] is the index drawn if the
    round ends.  [submitGuess()] itself resolves after the flips:
    [submitGuessStart] and [flipTiles]. *)
Definition submitGuess (r : nat) (s : State) : State :=
  let row := activeTiles s in
  let guess := guessedWord s in
  if negb (length row =? wordLength cfg) then
    playAnimation row "shake" 0 noCallback (showAlert NotEnoughLetters 1000 s)
  else if negb (existsb (word_eqb guess) dictionary) then
    playAnimation row "shake" 0 noCallback (showAlert NoSuchWord 1000 s)
  else
    let s1 := flipTiles s in
    match row with
    | [] => s1
    | _ :: _ => checkWinLose guess row r s1
    end.

(** [pressKey(key)]. *)
Definition pressKey (key : letter) (s : State) : State :=
  if wordLength cfg <=? length (activeTiles s) then s
  else match findIdx letterIsNil (tiles s) with
       | Some nextTile => alterTile (setTile (toLocaleUpperCase key)) nextTile s
       | None => s
       end.

(** [deleteKey()]. *)
Definition deleteKey (s : State) : State :=
  match findLastIdx isActive (tiles s) with
  | Some lastActiveTile => alterTile resetTile lastActiveTile s
  | None => s
  end.

(** The operations the controller calls, and their runs. *)
Inductive Op :=
| PressKey (key : letter)
| DeleteKey
| SubmitGuess (r : nat).

Definition step (s : State) (op : Op) : State :=
  match op with
  | PressKey key => pressKey key s
  | DeleteKey => deleteKey s
  | SubmitGuess r => submitGuess r s
  end.

Definition run (ops : list Op) (s : State) : State := foldl step s ops.

End Engine.

(** ** The interface built by the controller *)

(** The letters of config.keys, as code units. *)
Definition L_A : letter := 0x410%N.   (* А *)
Definition L_B : letter := 0x411%N.   (* Б *)
Definition L_V : letter := 0x412%N.   (* В *)
Definition L_G : letter := 0x413%N.   (* Г *)
Definition L_D : letter := 0x414%N.   (* Д *)
Definition L_E : letter := 0x415%N.   (* Е *)
Definition L_ZH : letter := 0x416%N.  (* Ж *)
Definition L_Z : letter := 0x417%N.   (* З *)
Definition L_I : letter := 0x418%N.   (* И *)
Definition L_J : letter := 0x419%N.   (* Й *)
Definition L_K : letter := 0x41A%N.   (* К *)
Definition L_L : letter := 0x41B%N.   (* Л *)
Definition L_M : letter := 0x41C%N.   (* М *)
Definition L_N : letter := 0x41D%N.   (* Н *)
Definition L_O : letter := 0x41E%N.   (* О *)
Definition L_P : letter := 0x41F%N.   (* П *)
Definition L_R : letter := 0x420%N.   (* Р *)
Definition L_S : letter := 0x421%N.   (* С *)
Definition L_T : letter := 0x422%N.   (* Т *)
Definition L_U : letter := 0x423%N.   (* У *)
Definition L_F : letter := 0x424%N.   (* Ф *)
Definition L_H : letter := 0x425%N.   (* Х *)
Definition L_TS : letter := 0x426%N.  (* Ц *)
Definition L_CH : letter := 0x427%N.  (* Ч *)
Definition L_SH : letter := 0x428%N.  (* Ш *)
Definition L_SHT : letter := 0x429%N. (* Щ *)
Definition L_ER : letter := 0x42A%N.  (* Ъ *)
Definition L_SOFT : letter := 0x42C%N. (* Ь *)
Definition L_YU : letter := 0x42E%N.  (* Ю *)
Definition L_YA : letter := 0x42F%N.  (* Я *)

Definition key_Enter : word := [69; 110; 116; 101; 114]%N.
Definition key_Delete : word := [68; 101; 108; 101; 116; 101]%N.

(** [config.keys]. *)
Definition config_keys : list word :=
  [ [L_YA]; [L_V]; [L_E]; [L_R]; [L_T]; [L_ER]; [L_U]; [L_I]; [L_O]; [L_P];
    [L_CH]; [L_A]; [L_S]; [L_D]; [L_F]; [L_G]; [L_H]; [L_J]; [L_K]; [L_L];
    [L_SH]; [L_SHT]; key_Enter; [L_Z]; [L_SOFT]; [L_TS]; [L_ZH]; [L_B];
    [L_N]; [L_M]; [L_YU]; key_Delete ].

(** [WordleUIController.createInterface()] followed by the constructor of
    [WordleGame]: [girdLength] tiles of class 'tile', one button of class
    'key' per entry of [config.keys], a scoreboard with children 'score'
    and 'highscore'.  [stored] is the item of the persistent store and
    [best] the number the constructor reads from it
    ([Number(localStorage.getItem(..)) || 0]). *)
Definition newGame (cfg : Config) (dictionary : list word)
    (stored : option string) (best : Z) (r : nat) : State :=
  initialize dictionary r
    {| tiles := replicate (girdLength cfg) (mkTile [] None None);
       keys := (λ k, mkKey k ["key"]) <$> config_keys;
       targetWord := [];
       score := 0;
       highscore := best;
       scoreboard := mkScoreboard (Some templates_score)
                                  (Some templates_highscore);
       localStorage := stored;
       trace := [] |}.

(** ** Feedback *)

Inductive LetterStatus := Correct | Present | Absent.

(** The status a tile or key class stands for. *)
Definition statusOfSpot (st : string) : option LetterStatus :=
  if String.eqb st "correct-spot" then Some Correct
  else if String.eqb st "wrong-spot" then Some Present
  else if String.eqb st "missing-spot" then Some Absent
  else None.

Definition tileStatus (t : Tile) : option LetterStatus :=
  dataset_state t ≫= statusOfSpot.

(** The feedback of an accepted guess: the statuses of the tiles of the
    submitted row once [submitGuess] has flipped them (before
    [#checkWinLose] runs). *)
Definition feedback (cfg : Config) (s : State) : list (option LetterStatus) :=
  (λ tile, tiles (flipTiles cfg s) !! tile ≫= tileStatus) <$> activeTiles s.

(** Number of occurrences of a letter in a word. *)
Fixpoint occ (c : letter) (w : word) : nat :=
  match w with
  | [] => 0
  | x :: w' => (if N.eqb x c then 1 else 0) + occ c w'
  end.

(** Number of positions of [guess] that hold [c] and whose feedback is
    [Correct] or [Present]. *)
Definition isHit (st : option LetterStatus) : bool :=
  match st with
  | Some Correct | Some Present => true
  | _ => false
  end.

Fixpoint markedCount (c : letter) (guess : word)
    (fb : list (option LetterStatus)) : nat :=
  match guess, fb with
  | g :: guess', st :: fb' =>
      (if N.eqb g c && isHit st then 1 else 0) + markedCount c guess' fb'
  | _, _ => 0
  end.

(** *** The two-pass reference of the specification

    Written from the words of the specification (section 4.2), to be
    compared with the feedback of the code. *)

(** Consume one occurrence of [c] from the remaining counts. *)
Definition consume (c : letter) (rem : letter → nat) : letter → nat :=
  λ x, if N.eqb x c then pred (rem x) else rem x.

(** Pass 1: exact matches are marked [Correct] and consumed. *)
Fixpoint pass1 (guess target : word) (rem : letter → nat)
    : list (option LetterStatus) * (letter → nat) :=
  match guess, target with
  | g :: guess', t :: target' =>
      if N.eqb g t then
        let '(marks, rem') := pass1 guess' target' (consume g rem) in
        (Some Correct :: marks, rem')
      else
        let '(marks, rem') := pass1 guess' target' rem in
        (None :: marks, rem')
  | _, _ => ([], rem)
  end.

(** Pass 2: a position not yet marked is [Present] if an occurrence of its
    letter remains (and consumes it), [Absent] otherwise. *)
Fixpoint pass2 (guess : word) (marks : list (option LetterStatus))
    (rem : letter → nat) : list LetterStatus :=
  match guess, marks with
  | g :: guess', Some st :: marks' => st :: pass2 guess' marks' rem
  | g :: guess', None :: marks' =>
      if 1 <=? rem g
      then Present :: pass2 guess' marks' (consume g rem)
      else Absent :: pass2 guess' marks' rem
  | _, _ => []
  end.

Definition twoPass (guess target : word) : list LetterStatus :=
  let '(marks, rem) := pass1 guess target (λ c, occ c target) in
  pass2 guess marks rem.

(** ** Keys *)

(** Modelled from the spec: the style sheet that colours a key from its
    classes is not among the sources.  The specification shows the best
    status a key has received in the round (best-status-wins). *)
Definition keyStatus (k : Key) : option LetterStatus :=
  if bool_decide ("correct-spot" ∈ classList k) then Some Correct
  else if bool_decide ("wrong-spot" ∈ classList k) then Some Present
  else if bool_decide ("missing-spot" ∈ classList k) then Some Absent
  else None.

(** ** Rounds *)

Section Rounds.

Variable cfg : Config.
Variable dictionary : list word.

(** [submitGuess] passes its two checks. *)
Definition accepted (s : State) : bool :=
  (length (activeTiles s) =? wordLength cfg)
  && existsb (word_eqb (guessedWord s)) dictionary.

(** The grid has no tile left without a letter. *)
Definition isGridFull (s : State) : bool := forallb letterIsString (tiles s).

(** [submitGuess] reaches one of the two branches of [#checkWinLose] that
    call [#initialize]. *)
Definition roundEnds (s : State) : bool :=
  accepted s
  && negb (length (activeTiles s) =? 0)
  && (word_eqb (guessedWord s) (targetWord s) || isGridFull s).

Definition opEndsRound (s : State) (op : Op) : bool :=
  match op with
  | SubmitGuess _ => roundEnds s
  | _ => false
  end.

(** No operation of the run ends the round. *)
Fixpoint sameRound (ops : list Op) (s : State) : Prop :=
  match ops with
  | [] => True
  | op :: ops' =>
      opEndsRound s op = false ∧ sameRound ops' (step cfg dictionary s op)
  end.

End Rounds.

(** ** Invariants of the interface *)

(** A tile that has a state has a letter: [#setTile] sets both,
    [#resetTile] deletes both, [#flipTile] needs the letter. *)
Definition tileOk (t : Tile) : bool :=
  match dataset_state t, dataset_letter t with
  | Some _, None => false
  | _, _ => true
  end.

Definition tilesOk (s : State) : Prop := forallb tileOk (tiles s) = true.

(** The scoreboard has its two named children. *)
Definition scoreboardOk (s : State) : Prop :=
  is_Some (score_item (scoreboard s)) ∧ is_Some (highscore_item (scoreboard s)).

(** The guess has a key for each of its letters. *)
Definition hasKey (s : State) (c : letter) : bool :=
  match findIdx (keyIs c) (keys s) with Some _ => true | None => false end.
Definition onKeyboard (s : State) (w : word) : Prop :=
  forallb (hasKey s) w = true.

(** No letter of the target occurs more often in the guess than in the
    target. *)
Definition noExcess (guess target : word) : Prop :=
  forallb (λ c, occ c guess <=? occ c target) target = true.

(** The status the code gives position [index] of a guess. *)
Definition statusAt (target : word) (index : nat) (c : letter) : LetterStatus :=
  if bool_decide (target !! index = Some c) then Correct
  else if bool_decide (c ∈ target) then Present
  else Absent.

(** ** Frames *)

(** What the flips of a row leave alone: the target, the scores, the
    scoreboard, the store and the letters on the tiles. *)
Definition sameScores (s s' : State) : Prop :=
  targetWord s' = targetWord s ∧ score s' = score s ∧
  highscore s' = highscore s ∧ scoreboard s' = scoreboard s ∧
  localStorage s' = localStorage s.

Definition lettersOf (s : State) : list (option letter) :=
  dataset_letter <$> tiles s.

(** The keys keep their names and only gain classes. *)
Definition keyGrows (k k' : Key) : Prop :=
  dataset_key k' = dataset_key k ∧ classList k ⊆ classList k'.
Definition keysGrow (s s' : State) : Prop :=
  Forall2 keyGrows (keys s) (keys s').

(** The tile carries one of the three classes of a flipped tile. *)
Definition classified (t : Tile) : Prop := is_Some (tileStatus t).

(** ** Counting letters position by position *)

(** The branches of [#flipTile] read along the guess and the target
    ([full] is the word [includes] searches). *)
Definition singlePass (full : word) (guess target : word) : list LetterStatus :=
  zip_with (λ g t, if N.eqb g t then Correct
                   else if bool_decide (g ∈ full) then Present else Absent)
           guess target.

(** The marks pass 1 leaves. *)
Definition exactMarks (guess target : word) : list (option LetterStatus) :=
  zip_with (λ g t, if N.eqb g t then Some Correct else None) guess target.

(** Positions where the guess and the target both hold [c]. *)
Fixpoint exact (c : letter) (guess target : word) : nat :=
  match guess, target with
  | g :: guess', t :: target' =>
      (if N.eqb g c && N.eqb g t then 1 else 0) + exact c guess' target'
  | _, _ => 0
  end.

(** Positions where the guess holds [c] and the target another letter. *)
Fixpoint misplaced (c : letter) (guess target : word) : nat :=
  match guess, target with
  | g :: guess', t :: target' =>
      (if N.eqb g c && negb (N.eqb g t) then 1 else 0)
      + misplaced c guess' target'
  | _, _ => 0
  end.

(** ** A sample game

    Words for the examples: БОРКА, БОРКО (the scenario of the
    specification) and КОРАБ. *)
Definition borka : word := [L_B; L_O; L_R; L_K; L_A].
Definition borko : word := [L_B; L_O; L_R; L_K; L_O].
Definition korab : word := [L_K; L_O; L_R; L_A; L_B].
Definition sampleDictionary : list word := [borka; borko; korab].

(** Typing a word and pressing Enter. *)
Definition typeWord (w : word) : list Op := PressKey <$> w.
Definition guessWord (w : word) (r : nat) : list Op :=
  typeWord w ++ [SubmitGuess r].

(** A new game whose target is БОРКА. *)
Definition game0 : State := newGame config sampleDictionary None 0 0.

(** БОРКО and КОРАБ typed into the first row, not yet submitted. *)
Definition typedBorko : State :=
  run config sampleDictionary (typeWord borko) game0.
Definition typedKorab : State :=
  run config sampleDictionary (typeWord korab) game0.

(** A round won (score 2, new target БОРКА), then five rows of КОРАБ and
    КОРАБ typed into the last row. *)
Definition wonOnce : State :=
  run config sampleDictionary (guessWord borka 0) game0.
Definition fiveWrong : State :=
  run config sampleDictionary (mjoin (replicate 5 (guessWord korab 0))) wonOnce.
Definition lastRow : State :=
  run config sampleDictionary (typeWord korab) fiveWrong.

(** БОРКА typed into the first row of a new game. *)
Definition typedBorka : State :=
  run config sampleDictionary (typeWord borka) game0.

(** КОРКА, a word outside the sample dictionary, typed into the first
    row. *)
Definition korka : word := [L_K; L_O; L_R; L_K; L_A].
Definition typedKorka : State :=
  run config sampleDictionary (typeWord korka) game0.

(** The configuration with a penalty of 3. *)
Definition configPenalty3 : Config :=
  {| wordLength := 5; girdLength := 30; score_reward := 2; score_penalty := 3;
     delays_betweenFlips := 250; delays_betweenJumps := 50;
     alert_rewardDuration := 2000; alert_penaltyDuration := 2000 |}.

(** КОРАБ submitted in the first row of a new game: the round goes on. *)
Definition afterKorab : State :=
  run config sampleDictionary (guessWord korab 0) game0.

(** ** The shape of the grid

    The grid the engine keeps: the committed rows (tiles with a letter and
    one of the three classes of a flipped tile), then the letters typed
    into the current row (active tiles), then blank tiles. *)

Definition blankTile : Tile := mkTile [] None None.

Definition isCommitted (t : Tile) : bool :=
  letterIsString t
  && match tileStatus t with Some _ => true | None => false end.

Definition isTyped (t : Tile) : bool := letterIsString t && isActive t.

Definition isBlank (t : Tile) : bool :=
  match textContent t, dataset_letter t, dataset_state t with
  | [], None, None => true
  | _, _, _ => false
  end.

Fixpoint bufferThenBlanks (ts : list Tile) : bool :=
  match ts with
  | [] => true
  | t :: ts' => if isTyped t then bufferThenBlanks ts' else forallb isBlank ts
  end.

Fixpoint gridShape (ts : list Tile) : bool :=
  match ts with
  | [] => true
  | t :: ts' => if isCommitted t then gridShape ts' else bufferThenBlanks ts
  end.

(** The grid has its shape and the current row holds at most
    [wordLength] letters. *)
Definition gridOk (cfg : Config) (s : State) : Prop :=
  gridShape (tiles s) = true ∧ length (activeTiles s) ≤ wordLength cfg.

(** Every letter of every word of the dictionary has a key. *)
Definition dictionaryOnKeyboard (dictionary : list word) (s : State) : Prop :=
  forallb (λ w, forallb (hasKey s) w) dictionary = true.

(** ** The controller

    [WordleUIController.#eventHandler(key)]: [key] is
    [event.key || event.target?.dataset?.key], [None] when that is not a
    string.  The listeners are detached while the handler runs, that is
    until [submitGuess()] resolves after the last flip.  [eventHandler] is
    the handler with [submitGuess] for Enter, so with what the submission
    defers run at once; [keyHandled] is the handler up to its first
    [await]. *)

(** [key.match(/^[а-яА-Я]$/)]: one code unit in U+0430..U+044F or in
    U+0410..U+042F. *)
Definition matchesLetter (key : word) : option letter :=
  match key with
  | [c] =>
      if ((0x430 <=? c) && (c <=? 0x44F) || (0x410 <=? c) && (c <=? 0x42F))%N
      then Some c else None
  | _ => None
  end.

Definition key_Backspace : word :=
  [66; 97; 99; 107; 115; 112; 97; 99; 101]%N.

Definition eventHandler (cfg : Config) (dictionary : list word)
    (key : option word) (r : nat) (s : State) : State :=
  match key with
  | None => s
  | Some k =>
      match matchesLetter k with
      | Some c => pressKey cfg c s
      | None =>
          if word_eqb k key_Enter then submitGuess cfg dictionary r s
          else if word_eqb k key_Delete || word_eqb k key_Backspace
          then deleteKey s
          else s
      end
  end.

(** The keys [#eventHandler] passes to [pressKey]. *)
Definition controllerOp (op : Op) : bool :=
  match op with
  | PressKey key =>
      match matchesLetter [key] with Some _ => true | None => false end
  | _ => true
  end.

(** ** The callbacks of a session

    The browser runs one callback to its end before the next.  A
    submission is several callbacks: [submitGuess()] up to its first
    [await]; the [onComplete] of each flip; [#checkWinLose], deferred by
    the last flip to the next [transitionend] of its tile; and, in a won
    round, the rest of [#checkWinLose] after the awaited dance.  The
    listeners of the controller are attached again when [submitGuess()]
    resolves, after the last flip, so keys are handled before
    [#checkWinLose] runs and during the dance.  A session is any sequence
    of these callbacks: the flips and checks carry what their closures
    captured. *)

(** [submitGuess()] up to its first [await]: the two checks, then the
    alert and the shake of a rejected guess, or the request of the flips. *)
Definition submitGuessStart (cfg : Config) (dictionary : list word)
    (s : State) : State :=
  let row := activeTiles s in
  let guess := guessedWord s in
  if negb (length row =? wordLength cfg) then
    playAnimation row "shake" 0 noCallback (showAlert NotEnoughLetters 1000 s)
  else if negb (existsb (word_eqb guess) dictionary) then
    playAnimation row "shake" 0 noCallback (showAlert NoSuchWord 1000 s)
  else emit (Animation "flip" row (delays_betweenFlips cfg)) s.

(** [#eventHandler(key)] up to its first [await]. *)
Definition keyHandled (cfg : Config) (dictionary : list word)
    (key : option word) (s : State) : State :=
  match key with
  | None => s
  | Some k =>
      match matchesLetter k with
      | Some c => pressKey cfg c s
      | None =>
          if word_eqb k key_Enter then submitGuessStart cfg dictionary s
          else if word_eqb k key_Delete || word_eqb k key_Backspace
          then deleteKey s
          else s
      end
  end.

Inductive Callback :=
| Handled (key : option word)
| Flipped (tile index : nat)
| Checked (guess : word) (row : list nat) (r : nat)
| Danced (r : nat).

(** The state of the game and the number of won rounds whose dance is
    awaited. *)
Record Session := mkSession {
  current : State;
  dancing : nat }.

(** [#checkWinLose(guess, tiles)] up to its first [await] that waits: a
    win stops at the dance; [await this.#showAlert(...)] of a lost round
    waits for nothing, [#initialize()] follows before any other callback. *)
Definition checked (cfg : Config) (dictionary : list word) (guess : word)
    (row : list nat) (r : nat) (ss : Session) : Session :=
  let s := current ss in
  if word_eqb guess (targetWord s) then
    let s1 := set_score (score s + score_reward cfg) s in
    let s2 := showAlert (Win (score_reward cfg)) (alert_rewardDuration cfg) s1 in
    mkSession (playAnimation row "dance" (delays_betweenJumps cfg) noCallback s2)
              (S (dancing ss))
  else if forallb letterIsString (tiles s) then
    let s1 := if (0 <? score s)%Z
              then set_score (score s - score_penalty cfg) s else s in
    let s2 := showAlert (Lose (targetWord s1) (score_penalty cfg))
                        (alert_penaltyDuration cfg) s1 in
    mkSession (initialize dictionary r s2) (dancing ss)
  else ss.

(** One callback.  [Danced] is the end of an awaited dance: it runs
    [#initialize()], and only when a dance is awaited. *)
Definition fire (cfg : Config) (dictionary : list word) (cb : Callback)
    (ss : Session) : Session :=
  match cb with
  | Handled key =>
      mkSession (keyHandled cfg dictionary key (current ss)) (dancing ss)
  | Flipped tile index =>
      mkSession (flipTile tile index (current ss)) (dancing ss)
  | Checked guess row r => checked cfg dictionary guess row r ss
  | Danced r =>
      match dancing ss with
      | 0 => ss
      | S n => mkSession (initialize dictionary r (current ss)) n
      end
  end.

Definition fireAll (cfg : Config) (dictionary : list word)
    (callbacks : list Callback) (ss : Session) : Session :=
  foldl (λ x cb, fire cfg dictionary cb x) ss callbacks.

(** The session the constructor starts. *)
Definition newSession (cfg : Config) (dictionary : list word)
    (stored : option string) (best : Z) (r : nat) : Session :=
  mkSession (newGame cfg dictionary stored best r) 0.

(** The callbacks of one accepted submission of the row [row] with the
    guess [guess], in the order of their timers, with nothing else handled
    in between: the last flip defers [#checkWinLose], so an empty row
    defers none. *)
Definition submission (guess : word) (row : list nat) (r : nat)
    : list Callback :=
  Handled (Some key_Enter) :: imap (λ index tile, Flipped tile index) row
  ++ match row with
     | [] => []
     | _ :: _ => [Checked guess row r; Danced r]
     end.

(** The letters on the tiles are capital letters А..Я. *)
Definition isCapital (c : letter) : bool := ((0x410 <=? c) && (c <=? 0x42F))%N.
Definition lettersCapital (s : State) : Prop :=
  forallb (λ t, match dataset_letter t with
                | Some c => isCapital c
                | None => true
                end) (tiles s) = true.

(** ** Utilities (utilities.js) *)

(** The argument [element] of [createArray]: absent, a function of the
    index, or a value. *)
Inductive Filler (T : Type) :=
| NoElement
| ElementFunction (f : nat → T)
| ElementValue (v : T).
Arguments NoElement {T}.
Arguments ElementFunction {T} f.
Arguments ElementValue {T} v.

(** An element of the array [createArray] returns: an index when no
    [element] was given, a value otherwise. *)
Inductive Cell (T : Type) :=
| IndexCell (index : nat)
| ValueCell (v : T).
Arguments IndexCell {T} index.
Arguments ValueCell {T} v.

(** [isNil(element) ? index : (isFunction(element) ? element(index) : element)]. *)
Definition fillerAt {T} (element : Filler T) (index : nat) : Cell T :=
  match element with
  | NoElement => IndexCell index
  | ElementFunction f => ValueCell (f index)
  | ElementValue v => ValueCell v
  end.

(** [createArray(size, element)]: [new Array(size)] is [size] holes
    ([None]); the loop assigns the indices 0 .. [size - 1] in order. *)
Definition createArray {T} (size : nat) (element : Filler T)
    : list (option (Cell T)) :=
  foldl (λ array index, <[index := Some (fillerAt element index)]> array)
        (replicate size None) (seq 0 size).

(** [[array[i], array[j]] = [array[j], array[i]]] for indices inside the
    array. *)
Definition swap {T} (i j : nat) (array : list T) : list T :=
  match array !! j, array !! i with
  | Some aj, Some ai => <[j := ai]> (<[i := aj]> array)
  | _, _ => array
  end.

(** The loop of [shuffle], from index [i] down to 1.  [draw i] is the
    index [~~(Math.random() * (i + 1))] drawn at [i]. *)
Fixpoint shuffleFrom {T} (draw : nat → nat) (i : nat) (array : list T)
    : list T :=
  match i with
  | 0 => array
  | S i' => shuffleFrom draw i' (swap i (draw i) array)
  end.

(** [shuffle(array, inPlace)]: the array returned (with [inPlace] unset
    it is a copy, with the same elements). *)
Definition shuffle {T} (draw : nat → nat) (array : list T) : list T :=
  shuffleFrom draw (length array - 1) array.

(** What [sampleFromArray(array, size)] returns: one element
    ([array[index]], [None] when there is none at that index) or an array
    of elements. *)
Inductive Sampled (T : Type) :=
| SampledOne (x : option T)
| SampledMany (l : list (option T)).
Arguments SampledOne {T} x.
Arguments SampledMany {T} l.

(** The values of a [Set] to which [draws] were added one after the
    other, in the order of insertion: each value where it first occurs. *)
Fixpoint insertionOrder (draws : list nat) : list nat :=
  match draws with
  | [] => []
  | index :: draws' => index :: filter (λ x, x ≠ index) (insertionOrder draws')
  end.

(** The loop [while (sampledIndexes.size < maxSize)
    sampledIndexes.add(getRandomIndex())]: [sampled] is the set in
    insertion order, [draws] the indices drawn; [None] when the draws run
    out before the set is large enough. *)
Fixpoint sampleLoop (maxSize : nat) (draws : list nat) (sampled : list nat)
    : option (list nat) :=
  match draws with
  | [] => if maxSize <=? length sampled then Some sampled else None
  | index :: draws' =>
      if maxSize <=? length sampled then Some sampled
      else sampleLoop maxSize draws'
             (if bool_decide (index ∈ sampled) then sampled
              else sampled ++ [index])
  end.

(** [sampleFromArray(array, size)]; [size] is [None] when the argument is
    absent. *)
Definition sampleFromArraySized {T} (array : list T) (size : option nat)
    (draws : list nat) : option (Sampled T) :=
  match size with
  | None | Some 0 => Some (SampledOne (head draws ≫= λ r, array !! r))
  | Some n =>
      (λ indexes, SampledMany ((λ index, array !! index) <$> indexes))
      <$> sampleLoop (n `min` length array) draws []
  end.

(** The constants of the generator in [seedRandom]. *)
Definition lcg_m : Z := 2 ^ 32.
Definition lcg_a : Z := 1664525.
Definition lcg_c : Z := 1013904223.

(** Below this magnitude every integer is a JavaScript number and the
    products, sums and remainders of integers are exact. *)
Definition maxExact : Z := 2 ^ 53.

(** The module-level [cache] of [seedRandom]: a [Map] from seeds to
    results. *)
Abbreviation Cache := (gmap Z Z).

(** [seedRandom(seed)] for a seed that is an integer ([Some]) or absent
    ([None]; [entropy] is then the 32-bit number the browser or
    [Math.random] supplies).  The result is [numerator / 2 ^ 32]; the
    function returns the numerator (the division by a power of two is
    exact) and the cache.  The arithmetic is that of the source while
    [a * randomSeed + c] stays below [maxExact] in magnitude. *)
Definition seedRandom (seed : option Z) (entropy : Z) (cache : Cache)
    : Z * Cache :=
  match seed with
  | Some sd =>
      match cache !! sd with
      | Some result => (result, cache)
      | None =>
          let result := Z.rem (lcg_a * sd + lcg_c) lcg_m in
          (result, <[sd := result]> cache)
      end
  | None => (Z.rem (lcg_a * entropy + lcg_c) lcg_m, cache)
  end.

(** ** More of the sample game *)

(** The key ы pressed in a new game: Ы has no key on the keyboard. *)
Definition typedYery : State := pressKey config 0x44B%N game0.


(** A round won (score 2), four rows of КОРАБ, and КОРАБ typed into the
    fifth row. *)
Definition fifthRow : State :=
  run config sampleDictionary
      (mjoin (replicate 4 (guessWord korab 0)) ++ typeWord korab) wonOnce.

(** The fifth row submitted and flipped, the sixth row typed, and only then
    the [#checkWinLose] of the fifth row. *)
Definition sixthRowTypedEarly : list Callback :=
  Handled (Some key_Enter)
  :: imap (λ index tile, Flipped tile index) (activeTiles fifthRow)
  ++ ((λ c, Handled (Some [c])) <$> korab)
  ++ [Checked korab (activeTiles fifthRow) 0].

(** БОРКА typed and submitted in a new game whose target it is, up to
    the end of the dance, and the same up to the dance. *)
Definition borkaWon : list Callback :=
  ((λ c, Handled (Some [c])) <$> borka) ++ submission borka (seq 0 5) 0.
Definition borkaDancing : list Callback :=
  ((λ c, Handled (Some [c])) <$> borka)
  ++ Handled (Some key_Enter)
  :: imap (λ index tile, Flipped tile index) (seq 0 5) ++ [Checked borka (seq 0 5) 0].

(** ** Invariants of a session *)

(** The scoreboard shows the current and the best score. *)
Definition scoreboardShows (s : State) : Prop :=
  scoreboard s
  = {| score_item := Some (templates_score +:+ pretty (score s));
       highscore_item := Some (templates_highscore +:+ pretty (highscore s)) |}.

(** The scoreboard shows the best score. *)
Definition bestShown (s : State) : Prop :=
  highscore_item (scoreboard s)
  = Some (templates_highscore +:+ pretty (highscore s)).

(** The scores are settled: the scoreboard shows them and the best score
    is not below the current score. *)
Definition settled (s : State) : Prop :=
  scoreboardShows s ∧ (score s ≤ highscore s)%Z.

(** What holds of the scores in every state of a session: the scoreboard
    has its two items and shows the best score, and the scores are settled
    unless a won round awaits the end of its dance. *)
Definition scoresKept (ss : Session) : Prop :=
  scoreboardOk (current ss) ∧ bestShown (current ss) ∧
  (dancing ss = 0 → settled (current ss)).

(** The store holds the best score. *)
Definition storeInSync (s : State) : Prop :=
  localStorage s = Some (pretty (highscore s)).

(** The index drawn by an operation that may end the round lies in the
    dictionary. *)
Definition drawInRange (dictionary : list word) (op : Op) : bool :=
  match op with
  | SubmitGuess r => r <? length dictionary
  | _ => true
  end.

(** The classes of the keys agree with the target: a key marked correct
    or misplaced stands for a letter of the target, a key marked missing
    for a letter outside it. *)
Definition keysAgree (s : State) : Prop :=
  ∀ i k, keys s !! i = Some k →
    (("correct-spot" ∈ classList k ∨ "wrong-spot" ∈ classList k) →
     ∃ c, dataset_key k = [c] ∧ c ∈ targetWord s) ∧
    ("missing-spot" ∈ classList k →
     ∃ c, dataset_key k = [c] ∧ c ∉ targetWord s).

(** * Properties

    ** Array helpers *)

Section ArrayLemmas.
Context {A : Type} (p : A → bool).

Lemma filterFrom_lookup (l : list A) (i j : nat) :
  j ∈ filterFrom p i l ↔ ∃ x, i ≤ j ∧ l !! (j - i) = Some x ∧ p x = true.
Proof.
  revert i. induction l as [|x l IH]; intros i; simpl.
  - split; [intros H; inversion H | intros (x & _ & H & _); done].
  - assert (Hrec : j ∈ filterFrom p (S i) l ↔
                   ∃ y, i ≤ j ∧ (x :: l) !! (j - i) = Some y ∧ p y = true ∧ j ≠ i).
    { rewrite IH. split.
      - intros (y & Hle & Hy & Hp). exists y. repeat split; [lia | | done | lia].
        replace (j - i) with (S (j - S i)) by lia. done.
      - intros (y & Hle & Hy & Hp & Hne). exists y. repeat split; [lia | | done].
        replace (j - i) with (S (j - S i)) in Hy by lia. done. }
    destruct (p x) eqn:Hpx.
    + rewrite elem_of_cons, Hrec. split.
      * intros [-> | (y & ? & ? & ? & ?)].
        -- exists x. rewrite Nat.sub_diag. done.
        -- exists y. done.
      * intros (y & Hle & Hy & Hp).
        destruct (decide (j = i)) as [-> | Hne]; [by left | right].
        exists y. done.
    + rewrite Hrec. split.
      * intros (y & ? & ? & ? & ?). exists y. done.
      * intros (y & Hle & Hy & Hp). exists y. repeat split; try done.
        intros ->. rewrite Nat.sub_diag in Hy. simpl in Hy. congruence.
Qed.

Lemma filterFrom_NoDup (l : list A) (i : nat) : NoDup (filterFrom p i l).
Proof.
  revert i. induction l as [|x l IH]; intros i; simpl; [constructor |].
  destruct (p x); [| apply IH].
  constructor; [| apply IH].
  rewrite filterFrom_lookup. intros (y & Hle & _). lia.
Qed.

Lemma filterIdx_lookup (l : list A) (j : nat) :
  j ∈ filterIdx p l ↔ ∃ x, l !! j = Some x ∧ p x = true.
Proof.
  unfold filterIdx. rewrite filterFrom_lookup. rewrite Nat.sub_0_r.
  split; [intros (x & _ & H); eauto | intros (x & H); exists x; split; [lia | done]].
Qed.

Lemma findIdx_Some (l : list A) (i : nat) :
  findIdx p l = Some i →
  ∃ x, l !! i = Some x ∧ p x = true ∧
       ∀ j y, j < i → l !! j = Some y → p y = false.
Proof.
  revert i. induction l as [|x l IH]; intros i; simpl; [done |].
  destruct (p x) eqn:Hpx.
  - intros [= <-]. exists x. repeat split; [done |]. intros j y Hj. lia.
  - destruct (findIdx p l) as [k|] eqn:Hk; simpl; [| done].
    intros [= <-]. destruct (IH k eq_refl) as (y & Hy & Hpy & Hmin).
    exists y. repeat split; [done.. |].
    intros [|j] z Hj Hz; simpl in Hz; [congruence |].
    apply (Hmin j); [lia | done].
Qed.

Lemma findIdx_None (l : list A) :
  findIdx p l = None → ∀ j y, l !! j = Some y → p y = false.
Proof.
  induction l as [|x l IH]; simpl; [done |].
  destruct (p x) eqn:Hpx; [done |].
  destruct (findIdx p l) eqn:Hk; simpl; [done |].
  intros _ [|j] y Hy; simpl in Hy; [congruence | by apply (IH eq_refl j)].
Qed.

Lemma findIdx_is_Some (l : list A) (i : nat) (x : A) :
  l !! i = Some x → p x = true → is_Some (findIdx p l).
Proof.
  intros Hx Hp. destruct (findIdx p l) eqn:Hf; [done |].
  rewrite (findIdx_None l Hf i x Hx) in Hp. done.
Qed.

Lemma findLastIdx_Some (l : list A) (i : nat) :
  findLastIdx p l = Some i →
  ∃ x, l !! i = Some x ∧ p x = true ∧
       ∀ j y, i < j → l !! j = Some y → p y = false.
Proof.
  revert i. induction l as [|x l IH]; intros i; simpl; [done |].
  destruct (findLastIdx p l) as [k|] eqn:Hk.
  - intros [= <-]. destruct (IH k eq_refl) as (y & Hy & Hpy & Hmax).
    exists y. repeat split; [done.. |].
    intros [|j] z Hj Hz; [lia |]. simpl in Hz. apply (Hmax j); [lia | done].
  - destruct (p x) eqn:Hpx; [| done].
    intros [= <-]. exists x. repeat split; [done.. |].
    intros [|j] z Hj Hz; [lia |]. simpl in Hz.
    clear IH. revert j z Hz Hj. induction l as [|a l IHl]; intros j z Hz Hj; [done |].
    simpl in Hk. destruct (findLastIdx p l) eqn:Hl; [done |].
    destruct (p a) eqn:Hpa; [done |].
    destruct j as [|j]; simpl in Hz; [congruence |].
    apply (IHl eq_refl j); [done | lia].
Qed.

(** A search that only reads what [f] keeps finds the same element. *)
Lemma findIdx_alter (f : A → A) (k : nat) (l : list A) :
  (∀ x, p (f x) = p x) → findIdx p (alter f k l) = findIdx p l.
Proof.
  intros Hf. revert k. induction l as [|x l IH]; intros k; [done |].
  destruct k as [|k].
  - simpl. by rewrite Hf.
  - change (alter f (S k) (x :: l)) with (x :: alter f k l).
    simpl. by rewrite IH.
Qed.

End ArrayLemmas.

(** ** Flipping a row *)

Lemma foldl_invariant {A B} (P : A → Prop) (f : A → B → A) (l : list B) (a : A) :
  P a → (∀ x b, P x → P (f x b)) → P (foldl f a l).
Proof.
  intros Ha Hstep. revert a Ha.
  induction l as [|b l IH]; intros a Ha; simpl; [done |].
  apply IH, Hstep, Ha.
Qed.

Lemma sameScores_refl s : sameScores s s.
Proof. by repeat split. Qed.

Lemma sameScores_trans s1 s2 s3 :
  sameScores s1 s2 → sameScores s2 s3 → sameScores s1 s3.
Proof.
  unfold sameScores. intros (?&?&?&?&?) (?&?&?&?&?).
  repeat split; congruence.
Qed.

Lemma keyGrows_refl k : keyGrows k k.
Proof. by split. Qed.

Lemma keysGrow_refl s : keysGrow s s.
Proof. apply Forall2_same_length_lookup. split; [done |].
  intros i k k' H1 H2. assert (k = k') as <- by congruence. apply keyGrows_refl. Qed.

Lemma keysGrow_trans s1 s2 s3 : keysGrow s1 s2 → keysGrow s2 s3 → keysGrow s1 s3.
Proof.
  unfold keysGrow. intros H12 H23.
  eapply Forall2_trans; [| exact H12 | exact H23].
  intros k1 k2 k3 [E1 S1] [E2 S2]. split; [congruence |].
  by etrans.
Qed.

Lemma classList_add_subseteq token cl : cl ⊆ classList_add token cl.
Proof.
  unfold classList_add. destruct (existsb _ cl); [done |].
  intros x Hx. apply elem_of_app. by left.
Qed.

Lemma classList_add_elem token cl : token ∈ classList_add token cl.
Proof.
  unfold classList_add. destruct (existsb _ cl) eqn:He.
  - apply existsb_exists in He as (x & Hin & Heq).
    apply String.eqb_eq in Heq as ->. by apply list_elem_of_In.
  - apply elem_of_app. right. by apply list_elem_of_singleton.
Qed.

Lemma keysGrow_alter token key s s' :
  keys s' = alter (key_add token) key (keys s) → keysGrow s s'.
Proof.
  intros Hk. unfold keysGrow. rewrite Hk.
  apply Forall2_same_length_lookup. split; [by rewrite length_alter |].
  intros i k k' H1 H2.
  destruct (decide (key = i)) as [-> | Hne].
  - rewrite list_lookup_alter_eq, H1 in H2. simpl in H2. injection H2 as <-.
    split; [done | apply classList_add_subseteq].
  - rewrite list_lookup_alter_ne in H2 by done.
    assert (k = k') as <- by congruence. apply keyGrows_refl.
Qed.

(** [#flipTile] either returns early or classifies the tile and its key. *)
Lemma flipTile_cases tile index s :
  flipTile tile index s = s ∨
  ∃ t c key,
    tiles s !! tile = Some t ∧ dataset_letter t = Some c ∧
    findIdx (keyIs c) (keys s) = Some key ∧
    flipTile tile index s =
      set_keys (alter (key_add (spotOf (targetWord s) index c)) key (keys s))
        (alterTile (withState (spotOf (targetWord s) index c)) tile s).
Proof.
  unfold flipTile.
  destruct (tiles s !! tile) as [t|] eqn:Ht; [| by left].
  destruct (dataset_letter t) as [c|] eqn:Hc; [| by left].
  destruct (findIdx (keyIs c) (keys s)) as [key|] eqn:Hk; [| by left].
  right. exists t, c, key. done.
Qed.

Lemma lettersOf_alter_withState st tile s :
  lettersOf (alterTile (withState st) tile s) = lettersOf s.
Proof.
  unfold lettersOf, alterTile. simpl.
  apply list_eq. intros i. rewrite !list_lookup_fmap.
  destruct (decide (tile = i)) as [-> | Hne].
  - rewrite list_lookup_alter_eq. by destruct (tiles s !! i).
  - by rewrite list_lookup_alter_ne.
Qed.

Lemma flipTile_frame tile index s :
  sameScores s (flipTile tile index s) ∧
  trace (flipTile tile index s) = trace s ∧
  lettersOf (flipTile tile index s) = lettersOf s ∧
  keysGrow s (flipTile tile index s).
Proof.
  destruct (flipTile_cases tile index s) as [-> | (t & c & key & Ht & Hc & Hk & ->)].
  - repeat split; try done. apply keysGrow_refl.
  - repeat split; try done.
    + apply (lettersOf_alter_withState _ tile s).
    + by eapply keysGrow_alter.
Qed.

Lemma flipTile_other tile index s i :
  i ≠ tile → tiles (flipTile tile index s) !! i = tiles s !! i.
Proof.
  intros Hne.
  destruct (flipTile_cases tile index s) as [-> | (t & c & key & Ht & Hc & Hk & ->)];
    [done |].
  simpl. by rewrite list_lookup_alter_ne.
Qed.

Lemma keyIs_grows c k k' : keyGrows k k' → keyIs c k' = keyIs c k.
Proof. intros [E _]. unfold keyIs. by rewrite E. Qed.

Lemma findIdx_Forall2 {A} (p : A → bool) (R : A → A → Prop) l l' :
  (∀ x y, R x y → p y = p x) → Forall2 R l l' → findIdx p l' = findIdx p l.
Proof.
  intros HR H. induction H as [|x y l l' Hxy _ IH]; simpl; [done |].
  by rewrite (HR x y Hxy), IH.
Qed.

Lemma findKey_grows c s s' :
  keysGrow s s' → findIdx (keyIs c) (keys s') = findIdx (keyIs c) (keys s).
Proof. apply findIdx_Forall2. intros x y. apply keyIs_grows. Qed.

Lemma flipTile_at tile index s t c :
  tiles s !! tile = Some t → dataset_letter t = Some c →
  is_Some (findIdx (keyIs c) (keys s)) →
  tiles (flipTile tile index s) !! tile
  = Some (withState (spotOf (targetWord s) index c) t).
Proof.
  intros Ht Hc [key Hk]. unfold flipTile. rewrite Ht, Hc, Hk. simpl.
  by rewrite list_lookup_alter_eq, Ht.
Qed.


(** The callbacks of a row of flips, in the order they run. *)
Lemma flips_frame (ps : list (nat * nat)) (s : State) :
  let s' := foldl (λ st p, flipTile p.2 p.1 st) s ps in
  sameScores s s' ∧ trace s' = trace s ∧ lettersOf s' = lettersOf s ∧
  keysGrow s s'.
Proof.
  apply (foldl_invariant
    (λ x, sameScores s x ∧ trace x = trace s ∧ lettersOf x = lettersOf s ∧
          keysGrow s x)).
  - split; [apply sameScores_refl | split; [done | split; [done | apply keysGrow_refl]]].
  - intros x [index tile] (Hs & Ht & Hl & Hk).
    destruct (flipTile_frame tile index x) as (Hs' & Ht' & Hl' & Hk').
    simpl. split; [| split; [| split]].
    + apply (sameScores_trans s x _ Hs Hs').
    + congruence.
    + congruence.
    + apply (keysGrow_trans s x _ Hk Hk').
Qed.

Lemma flips_other (ps : list (nat * nat)) (s : State) (i : nat) :
  i ∉ ps.*2 →
  tiles (foldl (λ st p, flipTile p.2 p.1 st) s ps) !! i = tiles s !! i.
Proof.
  revert s. induction ps as [|[index tile] ps IH]; intros s Hi; [done |].
  simpl in *. apply not_elem_of_cons in Hi as [Hne Hi].
  rewrite IH by done. by apply flipTile_other.
Qed.

Lemma flips_at (ps : list (nat * nat)) (s : State) index tile t c :
  NoDup ps.*2 → (index, tile) ∈ ps →
  tiles s !! tile = Some t → dataset_letter t = Some c →
  is_Some (findIdx (keyIs c) (keys s)) →
  tiles (foldl (λ st p, flipTile p.2 p.1 st) s ps) !! tile
  = Some (withState (spotOf (targetWord s) index c) t).
Proof.
  revert s. induction ps as [|[index' tile'] ps IH]; intros s Hnd Hin Ht Hc Hk.
  { by apply elem_of_nil in Hin. }
  simpl in Hnd. apply NoDup_cons in Hnd as [Hfresh Hnd].
  apply elem_of_cons in Hin as [[= <- <-] | Hin]; simpl.
  - rewrite flips_other by done. by apply flipTile_at.
  - assert (tile ≠ tile') as Hne.
    { intros ->. apply Hfresh. apply list_elem_of_fmap. by exists (index, tile'). }
    destruct (flipTile_frame tile' index' s) as ((Htw & _) & _ & _ & Hgrow).
    rewrite (IH (flipTile tile' index' s)); try done.
    + by rewrite Htw.
    + by rewrite flipTile_other.
    + by rewrite (findKey_grows c _ _ Hgrow).
Qed.

Lemma imap_pair_snd {A} (l : list A) : (imap pair l).*2 = l.
Proof.
  rewrite fmap_imap. apply list_eq. intros i. rewrite list_lookup_imap.
  by destruct (l !! i).
Qed.

Section FlipTiles.

Variable cfg : Config.

Lemma flipTiles_frame (s : State) :
  sameScores s (flipTiles cfg s) ∧
  trace (flipTiles cfg s)
  = trace s ++ [Animation "flip" (activeTiles s) (delays_betweenFlips cfg)] ∧
  lettersOf (flipTiles cfg s) = lettersOf s ∧
  keysGrow s (flipTiles cfg s).
Proof.
  unfold flipTiles, playAnimation.
  set (s0 := emit _ s).
  destruct (flips_frame (imap pair (activeTiles s)) s0) as (Hs & Ht & Hl & Hk).
  split; [exact Hs | split; [by rewrite Ht | split; [by rewrite Hl | exact Hk]]].
Qed.

Lemma activeTiles_NoDup (s : State) : NoDup (activeTiles s).
Proof. apply filterFrom_NoDup. Qed.

Lemma activeTiles_lookup (s : State) (tile : nat) :
  tile ∈ activeTiles s ↔ ∃ t, tiles s !! tile = Some t ∧ isActive t = true.
Proof. apply filterIdx_lookup. Qed.

Lemma tilesOk_lookup (s : State) (i : nat) (t : Tile) :
  tilesOk s → tiles s !! i = Some t → tileOk t = true.
Proof.
  unfold tilesOk. rewrite forallb_forall. intros H Ht.
  apply H. apply list_elem_of_In. by eapply list_elem_of_lookup_2.
Qed.

Lemma active_has_letter (s : State) (tile : nat) :
  tilesOk s → tile ∈ activeTiles s →
  ∃ t c, tiles s !! tile = Some t ∧ dataset_letter t = Some c.
Proof.
  intros Hok (t & Ht & Ha)%activeTiles_lookup.
  pose proof (tilesOk_lookup s tile t Hok Ht) as Hto.
  unfold tileOk, isActive in *.
  destruct (dataset_state t); [| done].
  destruct (dataset_letter t) as [c|] eqn:Hc; [| done].
  by exists t, c.
Qed.

(** The guess read from the row: one letter per active tile. *)
Lemma guessedWord_row (s : State) :
  tilesOk s →
  Forall2 (λ tile c, ∃ t, tiles s !! tile = Some t ∧ dataset_letter t = Some c)
          (activeTiles s) (guessedWord s).
Proof.
  intros Hok. unfold guessedWord.
  assert (Hrow : ∀ tile, tile ∈ activeTiles s →
            ∃ t c, tiles s !! tile = Some t ∧ dataset_letter t = Some c)
    by (intros tile; by apply active_has_letter).
  generalize dependent (activeTiles s). intros row Hrow.
  cut (∀ acc, ∃ g,
         foldl (λ w tile, w ++ from_option letterText [] (tiles s !! tile)) acc row
         = acc ++ g ∧
         Forall2 (λ tile c, ∃ t, tiles s !! tile = Some t ∧ dataset_letter t = Some c)
                 row g).
  { intros H. destruct (H []) as (g & -> & HF). done. }
  induction row as [|tile row IH]; intros acc.
  - exists []. split; [by rewrite app_nil_r | constructor].
  - destruct (Hrow tile) as (t & c & Ht & Hc); [by left |].
    destruct (IH (λ x Hx, Hrow x (list_elem_of_further _ _ _ Hx)) (acc ++ [c]))
      as (g & Hg & HF).
    exists (c :: g). split.
    + simpl. rewrite Ht. simpl. unfold letterText at 2. rewrite Hc.
      rewrite Hg. by rewrite <- app_assoc.
    + constructor; [by exists t | done].
Qed.

Lemma guessedWord_length (s : State) :
  tilesOk s → length (guessedWord s) = length (activeTiles s).
Proof. intros H. symmetry. by eapply Forall2_length, guessedWord_row. Qed.

(** The feedback of the code, position by position. *)
Lemma feedback_statusAt (s : State) :
  tilesOk s → onKeyboard s (guessedWord s) →
  feedback cfg s = imap (λ i c, Some (statusAt (targetWord s) i c)) (guessedWord s).
Proof.
  intros Hok Hkeys.
  pose proof (guessedWord_row s Hok) as Hrow.
  apply list_eq. intros i. unfold feedback.
  rewrite list_lookup_fmap, list_lookup_imap.
  destruct (activeTiles s !! i) as [tile|] eqn:Hi.
  - destruct (Forall2_lookup_l _ _ _ _ _ Hrow Hi) as (c & Hc & t & Ht & Htc).
    rewrite Hc. simpl.
    unfold flipTiles, playAnimation.
    rewrite (flips_at _ _ i tile t c).
    + simpl. unfold tileStatus, withState, spotOf, statusAt. simpl.
      repeat case_bool_decide; done.
    + rewrite imap_pair_snd. apply activeTiles_NoDup.
    + apply list_elem_of_lookup. exists i. rewrite list_lookup_imap, Hi. done.
    + done.
    + done.
    + simpl. unfold onKeyboard in Hkeys. rewrite forallb_forall in Hkeys.
      assert (hasKey s c = true) as Hhas
        by (apply Hkeys, list_elem_of_In; by eapply list_elem_of_lookup_2).
      unfold hasKey in Hhas. by destruct (findIdx (keyIs c) (keys s)).
  - simpl. apply Forall2_length in Hrow.
    apply lookup_ge_None in Hi. rewrite (lookup_ge_None_2 (guessedWord s)); [done | lia].
Qed.

End FlipTiles.

(** ** The feedback as a function of the two words *)

Lemma singlePass_cons (full : word) g guess t target :
  singlePass full (g :: guess) (t :: target)
  = (if N.eqb g t then Correct
     else if bool_decide (g ∈ full) then Present else Absent)
    :: singlePass full guess target.
Proof. done. Qed.

Lemma exactMarks_cons g guess t target :
  exactMarks (g :: guess) (t :: target)
  = (if N.eqb g t then Some Correct else None) :: exactMarks guess target.
Proof. done. Qed.

Lemma statusAt_singlePass (full guess : word) (k : nat) :
  length guess + k = length full →
  imap (λ i c, statusAt full (k + i) c) guess
  = singlePass full guess (drop k full).
Proof.
  revert k. induction guess as [|g guess IH]; intros k Hlen; [done |].
  destruct (full !! k) as [t|] eqn:Hk.
  2: { apply lookup_ge_None in Hk. simpl in Hlen. lia. }
  rewrite (drop_S _ _ _ Hk). rewrite imap_cons, singlePass_cons.
  f_equal.
  - unfold statusAt. rewrite Nat.add_0_r, Hk.
    destruct (N.eqb_spec g t) as [-> | Hne].
    + by rewrite bool_decide_eq_true_2.
    + rewrite bool_decide_eq_false_2; [done | congruence].
  - rewrite <- (IH (S k)) by (simpl in Hlen; lia).
    apply imap_ext. intros i c _. simpl. f_equal. lia.
Qed.

Lemma occ_not_elem (c : letter) (w : word) : c ∉ w → occ c w = 0.
Proof.
  induction w as [|x w IH]; [done |].
  intros [Hne Hw]%not_elem_of_cons. simpl.
  destruct (N.eqb_spec x c); [congruence |]. by rewrite IH.
Qed.

Lemma occ_exact_misplaced (c : letter) (guess target : word) :
  length guess = length target →
  occ c guess = exact c guess target + misplaced c guess target.
Proof.
  revert target. induction guess as [|g guess IH]; intros [|t target] Hlen;
    simpl in *; try done.
  rewrite (IH target) by lia.
  destruct (N.eqb g c), (N.eqb g t); simpl; lia.
Qed.

(** Pass 1 leaves the exact marks and removes the exact matches. *)
Lemma pass1_spec (guess target : word) (rem : letter → nat) :
  ∃ rem', pass1 guess target rem = (exactMarks guess target, rem') ∧
          ∀ c, rem' c = rem c - exact c guess target.
Proof.
  revert target rem. induction guess as [|g guess IH]; intros [|t target] rem;
    simpl; try (exists rem; split; [done | intros c; lia]).
  destruct (N.eqb_spec g t) as [-> | Hne].
  - destruct (IH target (consume t rem)) as (rem' & -> & Hrem).
    exists rem'. split; [done |]. intros c. rewrite Hrem. unfold consume.
    rewrite (N.eqb_sym t c). destruct (N.eqb c t); simpl; lia.
  - destruct (IH target rem) as (rem' & -> & Hrem).
    exists rem'. split; [done |]. intros c. rewrite Hrem.
    rewrite andb_false_r. simpl. lia.
Qed.

(** Pass 2 agrees with the code while every misplaced letter of the
    target still has an occurrence left. *)
Lemma pass2_spec (full guess target : word) (rem : letter → nat) :
  length guess = length target →
  (∀ c, c ∈ full → misplaced c guess target ≤ rem c) →
  (∀ c, c ∉ full → rem c = 0) →
  pass2 guess (exactMarks guess target) rem = singlePass full guess target.
Proof.
  revert target rem.
  induction guess as [|g guess IH]; intros [|t target] rem Hlen Hin Hout;
    try done.
  rewrite singlePass_cons, exactMarks_cons. simpl in Hlen, Hin.
  destruct (N.eqb_spec g t) as [-> | Hne]; simpl.
  - f_equal. apply IH; [lia | | done].
    intros c Hc. specialize (Hin c Hc).
    rewrite andb_false_r in Hin. simpl in Hin. done.
  - case_bool_decide as Hg.
    + pose proof (Hin g Hg) as Hrem. rewrite N.eqb_refl in Hrem. simpl in Hrem.
      destruct (rem g) as [|n] eqn:Hr; [lia |].
      f_equal. apply IH; [lia | |].
      * intros c Hc. specialize (Hin c Hc). unfold consume.
        rewrite (N.eqb_sym c g).
        destruct (N.eqb_spec g c) as [E | E]; simpl in *; [subst c; rewrite Hr |]; lia.
      * intros c Hc. unfold consume. rewrite (Hout c Hc). by destruct (N.eqb c g).
    + rewrite (Hout g Hg). simpl. f_equal. apply IH; [lia | | done].
      intros c Hc. specialize (Hin c Hc).
      destruct (N.eqb_spec g c) as [-> | ?]; [done |]. simpl in Hin. done.
Qed.

(** The two-pass reference and the code agree on a guess that uses no
    letter of the target more often than the target has it. *)
Lemma twoPass_singlePass (guess target : word) :
  length guess = length target →
  (∀ c, c ∈ target → occ c guess ≤ occ c target) →
  twoPass guess target = singlePass target guess target.
Proof.
  intros Hlen Hocc. unfold twoPass.
  destruct (pass1_spec guess target (λ c, occ c target)) as (rem & -> & Hrem).
  apply pass2_spec; [done | |].
  - intros c Hc. rewrite Hrem. specialize (Hocc c Hc).
    rewrite (occ_exact_misplaced c guess target Hlen) in Hocc. lia.
  - intros c Hc. rewrite Hrem, (occ_not_elem c target Hc). done.
Qed.

(** The positions of [c] the code marks [Correct] or [Present]: all of
    them when [c] is a letter of the target, none otherwise. *)
Lemma markedCount_singlePass (c : letter) (full guess target : word) :
  length guess = length target → target ⊆ full →
  markedCount c guess (Some <$> singlePass full guess target)
  = if bool_decide (c ∈ full) then occ c guess else 0.
Proof.
  revert target. induction guess as [|g guess IH]; intros [|t target] Hlen Hsub;
    try done.
  - simpl. by case_bool_decide.
  - simpl in Hlen. assert (t ∈ full) as Ht by (apply Hsub; by left).
    assert (target ⊆ full) as Hsub' by (intros x Hx; apply Hsub; by right).
    rewrite singlePass_cons, fmap_cons. cbn [markedCount occ].
    rewrite (IH target) by (done || lia).
    destruct (N.eqb_spec g c) as [-> | Hgc]; simpl.
    + destruct (N.eqb_spec c t) as [-> | Hct]; simpl.
      * by rewrite bool_decide_eq_true_2.
      * by case_bool_decide.
    + by case_bool_decide.
Qed.

(** ** Feedback of a submitted guess *)

Lemma noExcess_occ (guess target : word) :
  noExcess guess target → ∀ c, c ∈ target → occ c guess ≤ occ c target.
Proof.
  unfold noExcess. rewrite forallb_forall. intros H c Hc.
  apply Nat.leb_le, H. by apply list_elem_of_In.
Qed.

Section Feedback.

Variable cfg : Config.

Lemma feedback_singlePass (s : State) :
  tilesOk s → onKeyboard s (guessedWord s) →
  length (guessedWord s) = length (targetWord s) →
  feedback cfg s
  = Some <$> singlePass (targetWord s) (guessedWord s) (targetWord s).
Proof.
  intros Hok Hkeys Hlen.
  rewrite (feedback_statusAt cfg s Hok Hkeys).
  pose proof (statusAt_singlePass (targetWord s) (guessedWord s) 0) as H.
  rewrite drop_0 in H. rewrite <- H by lia.
  rewrite fmap_imap. by apply imap_ext.
Qed.

(** C1, amended.  The code classifies each position on its own: [Correct]
    when the target holds the same letter there, [Present] when the letter
    occurs anywhere in the target, [Absent] otherwise.  This feedback
    equals the two-pass reference for every guess that repeats no letter of
    the target more often than the target holds it. *)
Theorem feedback_two_pass_without_excess (s : State) :
  tilesOk s → onKeyboard s (guessedWord s) →
  length (guessedWord s) = length (targetWord s) →
  (∀ i c, guessedWord s !! i = Some c →
     feedback cfg s !! i = Some (Some (statusAt (targetWord s) i c))) ∧
  (noExcess (guessedWord s) (targetWord s) →
     feedback cfg s = Some <$> twoPass (guessedWord s) (targetWord s)).
Proof.
  intros Hok Hkeys Hlen. split.
  - intros i c Hc. rewrite (feedback_statusAt cfg s Hok Hkeys).
    by rewrite list_lookup_imap, Hc.
  - intros Hex. rewrite (feedback_singlePass s Hok Hkeys Hlen).
    f_equal. symmetry. apply twoPass_singlePass; [done |].
    by apply noExcess_occ.
Qed.

(** C2, amended.  Every position of the guess receives exactly one status.
    The positions of a letter [c] marked [Correct] or [Present] are all the
    occurrences of [c] in the guess when the target holds [c], and none
    otherwise; their number stays within the occurrences of [c] in the
    target when the guess holds [c] no more often than the target. *)
Theorem feedback_marks_every_occurrence (s : State) :
  tilesOk s → onKeyboard s (guessedWord s) →
  length (guessedWord s) = length (targetWord s) →
  length (feedback cfg s) = length (guessedWord s) ∧
  (∀ i, i < length (guessedWord s) →
     ∃ st, feedback cfg s !! i = Some (Some st)) ∧
  ∀ c,
    markedCount c (guessedWord s) (feedback cfg s)
    = (if bool_decide (c ∈ targetWord s) then occ c (guessedWord s) else 0) ∧
    (occ c (guessedWord s) ≤ occ c (targetWord s) →
     markedCount c (guessedWord s) (feedback cfg s) ≤ occ c (targetWord s)).
Proof.
  intros Hok Hkeys Hlen.
  assert (Hcount : ∀ c, markedCount c (guessedWord s) (feedback cfg s)
            = if bool_decide (c ∈ targetWord s) then occ c (guessedWord s) else 0).
  { intros c. rewrite (feedback_singlePass s Hok Hkeys Hlen).
    by apply markedCount_singlePass. }
  split; [| split].
  - rewrite (feedback_statusAt cfg s Hok Hkeys). apply length_imap.
  - intros i Hi. destruct (lookup_lt_is_Some_2 _ _ Hi) as [c Hc].
    exists (statusAt (targetWord s) i c).
    rewrite (feedback_statusAt cfg s Hok Hkeys).
    by rewrite list_lookup_imap, Hc.
  - intros c. split; [apply Hcount |].
    intros Hle. rewrite Hcount. case_bool_decide; lia.
Qed.

(** C8, amended.  For the target БОРКА and the guess БОРКО the code marks
    the last letter [Present]: О occurs in the target. *)
Theorem feedback_borka_borko (s : State) :
  tilesOk s → onKeyboard s (guessedWord s) →
  targetWord s = borka → guessedWord s = borko →
  feedback cfg s
  = [Some Correct; Some Correct; Some Correct; Some Correct; Some Present].
Proof.
  intros Hok Hkeys Ht Hg.
  rewrite (feedback_statusAt cfg s Hok Hkeys), Ht, Hg. reflexivity.
Qed.

End Feedback.

Lemma feedback_two_pass_without_excess_witness :
  feedback config typedKorab !! 0 = Some (Some Present) ∧
  feedback config typedKorab = Some <$> twoPass korab borka.
Proof.
  destruct (feedback_two_pass_without_excess config typedKorab)
    as [Hat Htwo]; [reflexivity | reflexivity | reflexivity |].
  split.
  - apply (Hat 0 L_K). reflexivity.
  - apply Htwo. reflexivity.
Defined.

(** C1 as stated fails: on БОРКА / БОРКО the code differs from the
    two-pass reference. *)
Lemma feedback_two_pass_counterexample :
  feedback config typedBorko
  ≠ Some <$> twoPass (guessedWord typedBorko) (targetWord typedBorko).
Proof. vm_compute. discriminate. Qed.

Lemma feedback_marks_every_occurrence_witness :
  length (feedback config typedKorab) = 5 ∧
  markedCount L_O korab (feedback config typedKorab) ≤ occ L_O borka.
Proof.
  destruct (feedback_marks_every_occurrence config typedKorab)
    as (Hlen & _ & Hc); [reflexivity | reflexivity | reflexivity |].
  split; [exact Hlen |].
  apply (Hc L_O). vm_compute. lia.
Defined.

(** C2 as stated fails: on БОРКА / БОРКО two positions of О are marked
    and the target holds О once. *)
Lemma feedback_count_counterexample :
  ¬ (markedCount L_O (guessedWord typedBorko) (feedback config typedBorko)
     ≤ occ L_O (targetWord typedBorko)).
Proof. vm_compute. lia. Qed.

Lemma feedback_borka_borko_witness :
  feedback config typedBorko
  = [Some Correct; Some Correct; Some Correct; Some Correct; Some Present].
Proof.
  apply (feedback_borka_borko config typedBorko); reflexivity.
Defined.

(** C8 as stated fails: the last status is not [Absent]. *)
Lemma feedback_borka_borko_counterexample :
  targetWord typedBorko = borka ∧ guessedWord typedBorko = borko ∧
  feedback config typedBorko
  ≠ [Some Correct; Some Correct; Some Correct; Some Correct; Some Absent].
Proof. split; [reflexivity | split; [reflexivity | vm_compute; discriminate]]. Qed.

(** ** Scores and rounds *)

Lemma playAnimation_noCallback items animation delay s :
  playAnimation items animation delay noCallback s
  = emit (Animation animation items delay) s.
Proof.
  unfold playAnimation. generalize (imap pair items). intros l.
  generalize (emit (Animation animation items delay) s). intros s0.
  induction l as [|p l IH]; [done | exact IH].
Qed.

Lemma word_eqb_eq (a b : word) : word_eqb a b = true ↔ a = b.
Proof. unfold word_eqb. apply bool_decide_eq_true. Qed.

Lemma word_eqb_neq (a b : word) : word_eqb a b = false ↔ a ≠ b.
Proof. unfold word_eqb. apply bool_decide_eq_false. Qed.

Lemma existsb_word_eqb (w : word) (l : list word) :
  existsb (word_eqb w) l = true ↔ w ∈ l.
Proof.
  rewrite existsb_exists. split.
  - intros (x & Hin & ->%word_eqb_eq). by apply list_elem_of_In.
  - intros Hin. exists w. split; [by apply list_elem_of_In | by apply word_eqb_eq].
Qed.

(** [#updateScore] raises the best score to the current one, in memory and
    in the store, exactly when the current score is greater. *)
Lemma updateScore_best (s : State) :
  scoreboardOk s →
  ((highscore s < score s)%Z →
     highscore (updateScore s) = score s ∧
     localStorage (updateScore s) = Some (pretty (score s))) ∧
  ((score s ≤ highscore s)%Z →
     highscore (updateScore s) = highscore s ∧
     localStorage (updateScore s) = localStorage s).
Proof.
  intros [[a Ha] [b Hb]]. unfold updateScore. rewrite Ha, Hb.
  destruct (Z.ltb_spec (highscore s) (score s)); split; intros; (done || lia).
Qed.

Lemma updateScore_highscore_le (s : State) :
  (highscore s ≤ highscore (updateScore s))%Z.
Proof.
  unfold updateScore.
  destruct (score_item (scoreboard s)); [| done].
  destruct (highscore_item (scoreboard s)); [| done].
  destruct (Z.ltb_spec (highscore s) (score s)); simpl; lia.
Qed.

Lemma updateScore_frame (s : State) :
  tiles (updateScore s) = tiles s ∧ keys (updateScore s) = keys s ∧
  targetWord (updateScore s) = targetWord s ∧
  score (updateScore s) = score s ∧ trace (updateScore s) = trace s.
Proof.
  unfold updateScore.
  destruct (score_item (scoreboard s)); [| done].
  destruct (highscore_item (scoreboard s)); [| done].
  by destruct (highscore s <? score s)%Z.
Qed.

Lemma updateScore_cong (s1 s2 : State) :
  score s1 = score s2 → highscore s1 = highscore s2 →
  scoreboard s1 = scoreboard s2 → localStorage s1 = localStorage s2 →
  highscore (updateScore s1) = highscore (updateScore s2) ∧
  localStorage (updateScore s1) = localStorage (updateScore s2).
Proof.
  intros Hs Hh Hb Hl. unfold updateScore. rewrite Hs, Hh, Hb.
  destruct (score_item (scoreboard s2)); [| done].
  destruct (highscore_item (scoreboard s2)); [| done].
  by destruct (highscore s2 <? score s2)%Z.
Qed.

Lemma updateScore_scoreboardOk (s : State) :
  scoreboardOk s → scoreboardOk (updateScore s).
Proof.
  intros [[a Ha] [b Hb]]. unfold updateScore. rewrite Ha, Hb.
  split; simpl; eauto.
Qed.

Lemma isGridFull_letters (s s' : State) :
  lettersOf s' = lettersOf s → isGridFull s' = isGridFull s.
Proof.
  unfold isGridFull, lettersOf. intros H.
  assert (Hf : ∀ l, forallb letterIsString l
                    = forallb (λ o : option N, bool_decide (is_Some o))
                        (dataset_letter <$> l)).
  { induction l as [|t l IH]; [done |]. simpl. rewrite IH. f_equal.
    unfold letterIsString. by destruct (dataset_letter t). }
  by rewrite !Hf, H.
Qed.

Section Rounds.

Variable cfg : Config.
Variable dictionary : list word.

Lemma initialize_spec (r : nat) (s : State) :
  score (initialize dictionary r s) = score s ∧
  trace (initialize dictionary r s) = trace s ∧
  highscore (initialize dictionary r s) = highscore (updateScore s) ∧
  localStorage (initialize dictionary r s) = localStorage (updateScore s) ∧
  scoreboard (initialize dictionary r s) = scoreboard (updateScore s) ∧
  targetWord (initialize dictionary r s) = sampleFromArray dictionary r ∧
  tiles (initialize dictionary r s) = resetTile <$> tiles s ∧
  keys (initialize dictionary r s) = key_reset <$> keys s.
Proof.
  destruct (updateScore_frame s) as (Ht & Hk & _ & Hs & Htr).
  unfold initialize, setRandomTargetWord. simpl.
  rewrite Ht, Hk, Hs, Htr. done.
Qed.

Lemma accepted_spec (s : State) :
  accepted cfg dictionary s = true ↔
  length (activeTiles s) = wordLength cfg ∧ guessedWord s ∈ dictionary.
Proof.
  unfold accepted. rewrite andb_true_iff, Nat.eqb_eq, existsb_word_eqb. done.
Qed.

(** The two rejections of [submitGuess], the length first. *)
Lemma submitGuess_rejected (r : nat) (s : State) :
  accepted cfg dictionary s = false →
  submitGuess cfg dictionary r s
  = emit (Animation "shake" (activeTiles s) 0)
      (emit (Alert (if length (activeTiles s) =? wordLength cfg
                    then NoSuchWord else NotEnoughLetters) 1000) s).
Proof.
  unfold accepted, submitGuess. intros H.
  destruct (length (activeTiles s) =? wordLength cfg); simpl in *.
  - rewrite H. simpl. by rewrite playAnimation_noCallback.
  - by rewrite playAnimation_noCallback.
Qed.

Lemma submitGuess_accepted (r : nat) (s : State) :
  accepted cfg dictionary s = true →
  submitGuess cfg dictionary r s
  = match activeTiles s with
    | [] => flipTiles cfg s
    | _ :: _ =>
        checkWinLose cfg dictionary (guessedWord s) (activeTiles s) r
                     (flipTiles cfg s)
    end.
Proof.
  unfold accepted, submitGuess. intros [H1 H2]%andb_true_iff.
  by rewrite H1, H2.
Qed.

Lemma activeTiles_nonempty (s : State) :
  accepted cfg dictionary s = true → wordLength cfg ≠ 0 →
  ∃ tile row, activeTiles s = tile :: row.
Proof.
  intros [Hlen _]%accepted_spec Hw.
  destruct (activeTiles s) as [|tile row]; [simpl in Hlen; lia | eauto].
Qed.

(** C4.  A guess whose row is not full, or whose word is not in the
    dictionary, is rejected: the length is checked first, the only effects
    are the advisory alert and the request to shake the row, and the
    tiles (so the buffer and the attempts used), the keys, the target, the
    scores, the scoreboard and the store are unchanged. *)
Theorem submitGuess_rejected_no_change (r : nat) (s : State) :
  length (activeTiles s) ≠ wordLength cfg ∨ guessedWord s ∉ dictionary →
  let s' := submitGuess cfg dictionary r s in
  tiles s' = tiles s ∧ keys s' = keys s ∧ sameScores s s' ∧
  activeTiles s' = activeTiles s ∧ guessedWord s' = guessedWord s ∧
  (length (activeTiles s) ≠ wordLength cfg →
     trace s' = trace s ++ [Alert NotEnoughLetters 1000;
                            Animation "shake" (activeTiles s) 0]) ∧
  (length (activeTiles s) = wordLength cfg →
     trace s' = trace s ++ [Alert NoSuchWord 1000;
                            Animation "shake" (activeTiles s) 0]).
Proof.
  intros Hrej s'.
  assert (accepted cfg dictionary s = false) as Hacc.
  { apply not_true_is_false. rewrite accepted_spec. tauto. }
  subst s'. rewrite (submitGuess_rejected r s Hacc).
  split; [done | split; [done | split; [by repeat split |]]].
  split; [done | split; [done |]].
  simpl. rewrite <- app_assoc. simpl.
  split; intros Hlen.
  - apply Nat.eqb_neq in Hlen. by rewrite Hlen.
  - apply Nat.eqb_eq in Hlen. by rewrite Hlen.
Qed.

(** A round that ends lost, for any configuration: the penalty is taken
    from a positive score. *)
Lemma submitGuess_lost (r : nat) (s : State) :
  accepted cfg dictionary s = true → wordLength cfg ≠ 0 →
  guessedWord s ≠ targetWord s → isGridFull s = true →
  let s' := submitGuess cfg dictionary r s in
  let lost :=
    set_score (if (0 <? score s)%Z then score s - score_penalty cfg
               else score s)%Z s in
  score s' = score lost ∧
  trace s'
  = trace s ++ [Animation "flip" (activeTiles s) (delays_betweenFlips cfg);
                Alert (Lose (targetWord s) (score_penalty cfg))
                      (alert_penaltyDuration cfg)] ∧
  highscore s' = highscore (updateScore lost) ∧
  localStorage s' = localStorage (updateScore lost) ∧
  targetWord s' = sampleFromArray dictionary r.
Proof.
  intros Hacc Hw Hne Hfull s' lost. subst s'.
  rewrite (submitGuess_accepted r s Hacc).
  destruct (activeTiles_nonempty s Hacc Hw) as (tile & row & Hrow).
  rewrite Hrow, <- Hrow.
  destruct (flipTiles_frame cfg s)
    as ((Htw & Hsc & Hhs & Hsb & Hls) & Htr & Hl & _).
  unfold checkWinLose.
  rewrite Htw. apply word_eqb_neq in Hne. rewrite Hne.
  change (forallb letterIsString (tiles (flipTiles cfg s)))
    with (isGridFull (flipTiles cfg s)).
  rewrite (isGridFull_letters _ _ Hl), Hfull, Hsc.
  cbv zeta.
  match goal with |- context [initialize dictionary r ?x] =>
    destruct (initialize_spec r x) as (Hs & Ht & Hh & Hst & _ & Htg & _);
    destruct (updateScore_cong x lost) as [Hh' Hst'] end;
    [unfold lost; destruct (0 <? score s)%Z; simpl; congruence.. |].
  rewrite Hs, Ht, Hh, Hst, Htg, Hh', Hst'. unfold lost.
  destruct (0 <? score s)%Z; simpl; rewrite ?Hsc, ?Htr, ?Htw, <- ?app_assoc; done.
Qed.

(** A round that ends won. *)
Lemma submitGuess_won (r : nat) (s : State) :
  accepted cfg dictionary s = true → wordLength cfg ≠ 0 →
  guessedWord s = targetWord s →
  let s' := submitGuess cfg dictionary r s in
  let won := set_score (score s + score_reward cfg) s in
  score s' = (score s + score_reward cfg)%Z ∧
  trace s'
  = trace s ++ [Animation "flip" (activeTiles s) (delays_betweenFlips cfg);
                Alert (Win (score_reward cfg)) (alert_rewardDuration cfg);
                Animation "dance" (activeTiles s) (delays_betweenJumps cfg)] ∧
  highscore s' = highscore (updateScore won) ∧
  localStorage s' = localStorage (updateScore won) ∧
  targetWord s' = sampleFromArray dictionary r.
Proof.
  intros Hacc Hw Heq s' won. subst s'.
  rewrite (submitGuess_accepted r s Hacc).
  destruct (activeTiles_nonempty s Hacc Hw) as (tile & row & Hrow).
  rewrite Hrow, <- Hrow.
  destruct (flipTiles_frame cfg s) as ((Htw & Hsc & Hhs & Hsb & Hls) & Htr & _ & _).
  unfold checkWinLose.
  rewrite Htw. apply word_eqb_eq in Heq. rewrite Heq.
  cbv zeta. rewrite playAnimation_noCallback.
  match goal with |- context [initialize dictionary r ?x] =>
    destruct (initialize_spec r x) as (Hs & Ht & Hh & Hst & _ & Htg & _) end.
  rewrite Hs, Ht, Hh, Hst, Htg.
  match goal with |- context [updateScore ?x] =>
    destruct (updateScore_cong x won) as [Hh' Hst'] end;
    [simpl; congruence.. |].
  rewrite Hh', Hst'. simpl. rewrite Hsc, Htr, <- !app_assoc. done.
Qed.

(** A round that goes on. *)
Lemma submitGuess_continues (r : nat) (s : State) :
  accepted cfg dictionary s = true →
  roundEnds cfg dictionary s = false →
  submitGuess cfg dictionary r s = flipTiles cfg s.
Proof.
  intros Hacc Hend. rewrite (submitGuess_accepted r s Hacc).
  unfold roundEnds in Hend. rewrite Hacc in Hend. simpl in Hend.
  destruct (activeTiles s) as [|tile row] eqn:Hrow; [done |].
  simpl in Hend. apply orb_false_iff in Hend as [Hne Hfull].
  destruct (flipTiles_frame cfg s) as ((Htw & _) & _ & Hl & _).
  unfold checkWinLose. rewrite Htw, Hne.
  change (forallb letterIsString (tiles (flipTiles cfg s)))
    with (isGridFull (flipTiles cfg s)).
  by rewrite (isGridFull_letters _ _ Hl), Hfull.
Qed.

End Rounds.

(** ** Operations *)

Section Steps.

Variable cfg : Config.
Variable dictionary : list word.

Lemma keysGrow_same_keys (s s' : State) : keys s' = keys s → keysGrow s s'.
Proof. unfold keysGrow. intros ->. apply (keysGrow_refl s). Qed.

Lemma roundEnds_spec (s : State) :
  roundEnds cfg dictionary s = true ↔
  accepted cfg dictionary s = true ∧ wordLength cfg ≠ 0 ∧
  (guessedWord s = targetWord s ∨
   guessedWord s ≠ targetWord s ∧ isGridFull s = true).
Proof.
  unfold roundEnds. rewrite !andb_true_iff, orb_true_iff, negb_true_iff.
  rewrite Nat.eqb_neq, word_eqb_eq. split.
  - intros [[Hacc Hlen] Hend]. split; [done |].
    apply accepted_spec in Hacc as Hacc'. destruct Hacc' as [Hl _].
    split; [lia |].
    destruct (decide (guessedWord s = targetWord s)); [by left |].
    right. destruct Hend; done.
  - intros (Hacc & Hw & Hend). apply accepted_spec in Hacc as Hacc'.
    destruct Hacc' as [Hl _]. split; [split; [done | lia] |].
    destruct Hend as [? | [_ ?]]; [by left | by right].
Qed.

(** An operation that does not end the round leaves the target, the
    scores, the scoreboard and the store alone, and the keys only gain
    classes. *)
Lemma step_same_round (s : State) (op : Op) :
  opEndsRound cfg dictionary s op = false →
  sameScores s (step cfg dictionary s op) ∧
  keysGrow s (step cfg dictionary s op).
Proof.
  destruct op as [key | | r]; simpl.
  - intros _. unfold pressKey.
    destruct (wordLength cfg <=? length (activeTiles s));
      [split; [apply sameScores_refl | apply keysGrow_refl] |].
    destruct (findIdx letterIsNil (tiles s));
      (split; [by repeat split | by apply keysGrow_same_keys]).
  - intros _. unfold deleteKey.
    destruct (findLastIdx isActive (tiles s));
      (split; [by repeat split | by apply keysGrow_same_keys]).
  - intros Hend.
    destruct (accepted cfg dictionary s) eqn:Hacc.
    + rewrite (submitGuess_continues cfg dictionary r s Hacc Hend).
      destruct (flipTiles_frame cfg s) as (? & _ & _ & ?). done.
    + rewrite (submitGuess_rejected cfg dictionary r s Hacc).
      split; [by repeat split | by apply keysGrow_same_keys].
Qed.

(** An operation that ends the round evaluates the best score against the
    new current score. *)
Lemma step_round_end (s : State) (op : Op) :
  opEndsRound cfg dictionary s op = true →
  let s' := step cfg dictionary s op in
  highscore s' = highscore (updateScore (set_score (score s') s)) ∧
  localStorage s' = localStorage (updateScore (set_score (score s') s)).
Proof.
  destruct op as [key | | r]; simpl; try done.
  intros (Hacc & Hw & Hend)%roundEnds_spec.
  destruct Hend as [Heq | [Hne Hfull]].
  - destruct (submitGuess_won cfg dictionary r s Hacc Hw Heq)
      as (Hs & _ & Hh & Hst & _).
    rewrite Hs. done.
  - destruct (submitGuess_lost cfg dictionary r s Hacc Hw Hne Hfull)
      as (Hs & _ & Hh & Hst & _).
    rewrite Hs. done.
Qed.

Lemma step_highscore_le (s : State) (op : Op) :
  (highscore s ≤ highscore (step cfg dictionary s op))%Z.
Proof.
  destruct (opEndsRound cfg dictionary s op) eqn:Hend.
  - destruct (step_round_end s op Hend) as [-> _].
    apply (updateScore_highscore_le (set_score _ s)).
  - destruct (step_same_round s op Hend) as [(_ & _ & -> & _) _]. lia.
Qed.

Lemma run_highscore_le (ops : list Op) (s : State) :
  (highscore s ≤ highscore (run cfg dictionary ops s))%Z.
Proof.
  revert s. induction ops as [|op ops IH]; intros s; simpl; [lia |].
  etrans; [apply (step_highscore_le s op) | apply IH].
Qed.


(** C7.  The best score never decreases over a run of operations.  An
    operation changes it, in memory and in the store, exactly when it ends
    a round with a current score greater than the best: both then hold the
    current score. *)
Theorem best_score_only_rises (ops : list Op) (op : Op) (s : State) :
  (highscore s ≤ highscore (run cfg dictionary ops s))%Z ∧
  (scoreboardOk s →
   let s' := step cfg dictionary s op in
   if opEndsRound cfg dictionary s op && (highscore s <? score s')%Z
   then highscore s' = score s' ∧ localStorage s' = Some (pretty (score s'))
   else highscore s' = highscore s ∧ localStorage s' = localStorage s).
Proof.
  split; [apply run_highscore_le |].
  intros Hsb s'.
  destruct (opEndsRound cfg dictionary s op) eqn:Hend; simpl.
  - destruct (step_round_end s op Hend) as [Hh Hst]. fold s' in Hh, Hst.
    destruct (updateScore_best (set_score (score s') s) Hsb) as [Hup Hkeep].
    simpl in Hup, Hkeep. rewrite Hh, Hst.
    destruct (Z.ltb_spec (highscore s) (score s')); [by apply Hup | by apply Hkeep].
  - destruct (step_same_round s op Hend) as [(_ & _ & Hh & _ & Hst) _]. done.
Qed.


End Steps.


(** ** Keys during a round *)

Lemma keyStatus_correct (k : Key) :
  "correct-spot" ∈ classList k → keyStatus k = Some Correct.
Proof. intros H. unfold keyStatus. by rewrite bool_decide_eq_true_2. Qed.

Lemma keysGrow_lookup (s s' : State) (i : nat) (k : Key) :
  keysGrow s s' → keys s !! i = Some k →
  ∃ k', keys s' !! i = Some k' ∧ keyGrows k k'.
Proof. intros H Hk. by eapply Forall2_lookup_l in H. Qed.

Section KeysInRound.

Variable cfg : Config.
Variable dictionary : list word.

Lemma run_same_round (ops : list Op) (s : State) :
  sameRound cfg dictionary ops s →
  sameScores s (run cfg dictionary ops s) ∧
  keysGrow s (run cfg dictionary ops s).
Proof.
  revert s. induction ops as [|op ops IH]; intros s; simpl.
  - intros _. split; [apply sameScores_refl | apply keysGrow_refl].
  - intros [Hop Hops].
    destruct (step_same_round cfg dictionary s op Hop) as [Hs Hk].
    destruct (IH _ Hops) as [Hs' Hk'].
    split; [by eapply sameScores_trans | by eapply keysGrow_trans].
Qed.

(** An exact match of an accepted guess puts the class of a correct
    letter on the key of that letter. *)
Lemma flipTiles_marks_correct (s : State) (i : nat) (c : letter) (key : nat) :
  tilesOk s →
  guessedWord s !! i = Some c → targetWord s !! i = Some c →
  findIdx (keyIs c) (keys s) = Some key →
  ∃ k, keys (flipTiles cfg s) !! key = Some k ∧ "correct-spot" ∈ classList k.
Proof.
  intros Hok Hg Ht Hkey.
  pose proof (guessedWord_row s Hok) as Hrow.
  destruct (Forall2_lookup_r _ _ _ _ _ Hrow Hg) as (tile & Hi & t & Htile & Hc).
  unfold flipTiles, playAnimation.
  set (s0 := emit _ s).
  assert (imap pair (activeTiles s) !! i = Some (i, tile)) as Hp
    by (by rewrite list_lookup_imap, Hi).
  assert (NoDup (imap pair (activeTiles s)).*2) as Hnd
    by (rewrite imap_pair_snd; apply activeTiles_NoDup).
  apply list_elem_of_split_length in Hp as (ps1 & ps2 & Hps & _).
  rewrite Hps in Hnd |- *. rewrite foldl_app. simpl.
  set (s1 := foldl _ s0 ps1).
  destruct (flips_frame ps1 s0) as ((Htw & _) & _ & _ & Hgrow1).
  fold s1 in Htw, Hgrow1.
  assert (tiles s1 !! tile = Some t) as Htile1.
  { unfold s1. rewrite flips_other; [done |].
    rewrite fmap_app in Hnd. apply NoDup_app in Hnd as (_ & Hdisj & _).
    intros Hin. apply (Hdisj tile Hin). simpl. by left. }
  assert (findIdx (keyIs c) (keys s1) = Some key) as Hkey1
    by (by rewrite (findKey_grows c s0 s1 Hgrow1)).
  destruct (findIdx_Some _ _ _ Hkey1) as (k1 & Hk1 & _).
  set (s2 := flipTile tile i s1).
  assert (∃ k2, keys s2 !! key = Some k2 ∧ "correct-spot" ∈ classList k2)
    as (k2 & Hk2 & Hcls).
  { exists (key_add "correct-spot" k1). unfold s2, flipTile.
    rewrite Htile1, Hc, Hkey1. simpl.
    rewrite list_lookup_alter_eq, Hk1. simpl.
    unfold spotOf. rewrite Htw. simpl. rewrite bool_decide_eq_true_2 by done.
    split; [done | apply classList_add_elem]. }
  destruct (flips_frame ps2 s2) as (_ & _ & _ & Hgrow2).
  destruct (keysGrow_lookup _ _ _ _ Hgrow2 Hk2) as (k & Hk & _ & Hsub).
  exists k. split; [done | by apply Hsub].
Qed.

(** C3.  Within a round a key that carries the class of a correct letter
    keeps it through every later operation: its classes only grow, so its
    status stays [Correct] and is never shown [Present] or [Absent].  The
    target of the round is the same throughout. *)
Theorem correct_key_stays_correct (ops : list Op) (s : State)
    (i : nat) (k : Key) :
  sameRound cfg dictionary ops s →
  keys s !! i = Some k → "correct-spot" ∈ classList k →
  ∃ k', keys (run cfg dictionary ops s) !! i = Some k' ∧
        dataset_key k' = dataset_key k ∧
        classList k ⊆ classList k' ∧
        keyStatus k' = Some Correct ∧
        targetWord (run cfg dictionary ops s) = targetWord s.
Proof.
  intros Hround Hk Hcls.
  destruct (run_same_round ops s Hround) as [(Htw & _) Hgrow].
  destruct (keysGrow_lookup _ _ _ _ Hgrow Hk) as (k' & Hk' & Hname & Hsub).
  exists k'. repeat split; try done.
  apply keyStatus_correct. by apply Hsub.
Qed.

End KeysInRound.

(** ** Tiles under editing *)

Lemma forallb_alter {A} (p : A → bool) (f : A → A) (i : nat) (l : list A) :
  forallb p l = true → (∀ x, l !! i = Some x → p (f x) = true) →
  forallb p (alter f i l) = true.
Proof.
  revert i. induction l as [|x l IH]; intros i Hl Hf; [done |].
  simpl in Hl. apply andb_true_iff in Hl as [Hx Hl].
  destruct i as [|i].
  - simpl. rewrite Hl, (Hf x eq_refl). done.
  - change (alter f (S i) (x :: l)) with (x :: alter f i l). simpl.
    rewrite Hx. simpl. apply IH; [done |]. intros y Hy. by apply (Hf y).
Qed.

Lemma classified_not_active (t : Tile) : classified t → isActive t = false.
Proof.
  unfold classified, tileStatus, isActive. intros [st Hst].
  destruct (dataset_state t) as [a|]; [| done].
  destruct (String.eqb_spec a "active-spot") as [-> | ?]; [| done].
  simpl in Hst. discriminate.
Qed.

Lemma classified_has_letter (t : Tile) :
  tileOk t = true → classified t → letterIsNil t = false.
Proof.
  unfold classified, tileStatus, tileOk, letterIsNil. intros Hok [st Hst].
  destruct (dataset_state t); [| done].
  by destruct (dataset_letter t).
Qed.

Section Editing.

Variable cfg : Config.
Variable dictionary : list word.

(** [pressKey] changes at most the first tile without a letter. *)
Lemma pressKey_changes (key : letter) (s : State) (j : nat) :
  tiles (pressKey cfg key s) !! j ≠ tiles s !! j →
  findIdx letterIsNil (tiles s) = Some j ∧
  length (activeTiles s) < wordLength cfg.
Proof.
  unfold pressKey.
  destruct (Nat.leb_spec (wordLength cfg) (length (activeTiles s))); [done |].
  destruct (findIdx letterIsNil (tiles s)) as [i|]; [| done].
  simpl. intros Hne. destruct (decide (i = j)) as [-> | Hij]; [done |].
  by rewrite list_lookup_alter_ne in Hne.
Qed.

(** [deleteKey] changes at most the last active tile. *)
Lemma deleteKey_changes (s : State) (j : nat) :
  tiles (deleteKey s) !! j ≠ tiles s !! j →
  findLastIdx isActive (tiles s) = Some j.
Proof.
  unfold deleteKey.
  destruct (findLastIdx isActive (tiles s)) as [i|]; [| done].
  simpl. intros Hne. destruct (decide (i = j)) as [-> | Hij]; [done |].
  by rewrite list_lookup_alter_ne in Hne.
Qed.

(** C9.  In a grid where every tile with a state has a letter (the
    invariant of the engine), a tile already classified keeps its letter
    and its state under [pressKey] and [deleteKey]: [pressKey] writes only
    to the first tile without a letter and [deleteKey] resets only the last
    active tile. *)
Theorem committed_rows_immutable (key : letter) (s : State)
    (i : nat) (t : Tile) :
  tilesOk s → tiles s !! i = Some t → classified t →
  tiles (pressKey cfg key s) !! i = Some t ∧
  tiles (deleteKey s) !! i = Some t ∧
  (∀ j, tiles (pressKey cfg key s) !! j ≠ tiles s !! j →
        findIdx letterIsNil (tiles s) = Some j) ∧
  (∀ j, tiles (deleteKey s) !! j ≠ tiles s !! j →
        findLastIdx isActive (tiles s) = Some j).
Proof.
  intros Hok Ht Hcl.
  pose proof (tilesOk_lookup s i t Hok Ht) as Hto.
  split; [| split; [| split]].
  - unfold pressKey.
    destruct (wordLength cfg <=? length (activeTiles s)); [done |].
    destruct (findIdx letterIsNil (tiles s)) as [j|] eqn:Hfind; [| done].
    simpl. destruct (decide (j = i)) as [-> | Hji].
    + destruct (findIdx_Some _ _ _ Hfind) as (x & Hx & Hnil & _).
      assert (x = t) as -> by congruence.
      by rewrite (classified_has_letter t Hto Hcl) in Hnil.
    + by rewrite list_lookup_alter_ne.
  - unfold deleteKey.
    destruct (findLastIdx isActive (tiles s)) as [j|] eqn:Hfind; [| done].
    simpl. destruct (decide (j = i)) as [-> | Hji].
    + destruct (findLastIdx_Some _ _ _ Hfind) as (x & Hx & Hact & _).
      assert (x = t) as -> by congruence.
      by rewrite (classified_not_active t Hcl) in Hact.
    + by rewrite list_lookup_alter_ne.
  - intros j Hj. by apply pressKey_changes in Hj as [? _].
  - intros j. apply deleteKey_changes.
Qed.

(** *** The invariants hold in every state the engine reaches *)

Lemma flipTile_tilesOk (tile index : nat) (s : State) :
  tilesOk s → tilesOk (flipTile tile index s).
Proof.
  intros Hok.
  destruct (flipTile_cases tile index s) as [-> | (t & c & key & Ht & Hc & Hk & ->)];
    [done |].
  unfold tilesOk. simpl. apply forallb_alter; [done |].
  intros x Hx. assert (x = t) as -> by congruence.
  unfold tileOk, withState. simpl. by rewrite Hc.
Qed.

Lemma flipTiles_tilesOk (s : State) : tilesOk s → tilesOk (flipTiles cfg s).
Proof.
  intros Hok. unfold flipTiles, playAnimation.
  apply (foldl_invariant tilesOk); [done |].
  intros x [index tile] Hx. by apply flipTile_tilesOk.
Qed.

Lemma initialize_tilesOk (r : nat) (s : State) :
  tilesOk (initialize dictionary r s).
Proof.
  unfold tilesOk.
  destruct (initialize_spec dictionary r s) as (_ & _ & _ & _ & _ & _ & -> & _).
  induction (tiles s) as [|t l IH]; [done | exact IH].
Qed.

Lemma checkWinLose_tilesOk guess row (r : nat) (s : State) :
  tilesOk s → tilesOk (checkWinLose cfg dictionary guess row r s).
Proof.
  intros Hok. unfold checkWinLose.
  destruct (word_eqb guess (targetWord s)); [apply initialize_tilesOk |].
  destruct (forallb letterIsString (tiles s)); [apply initialize_tilesOk | done].
Qed.

Lemma step_tilesOk (s : State) (op : Op) :
  tilesOk s → tilesOk (step cfg dictionary s op).
Proof.
  intros Hok. destruct op as [key | | r]; simpl.
  - unfold pressKey.
    destruct (wordLength cfg <=? length (activeTiles s)); [done |].
    destruct (findIdx letterIsNil (tiles s)); [| done].
    unfold tilesOk. simpl. by apply forallb_alter.
  - unfold deleteKey.
    destruct (findLastIdx isActive (tiles s)); [| done].
    unfold tilesOk. simpl. by apply forallb_alter.
  - destruct (accepted cfg dictionary s) eqn:Hacc.
    + rewrite (submitGuess_accepted cfg dictionary r s Hacc).
      destruct (activeTiles s).
      * by apply flipTiles_tilesOk.
      * by apply checkWinLose_tilesOk, flipTiles_tilesOk.
    + by rewrite (submitGuess_rejected cfg dictionary r s Hacc).
Qed.

Lemma run_tilesOk (ops : list Op) (s : State) :
  tilesOk s → tilesOk (run cfg dictionary ops s).
Proof.
  intros Hok. apply (foldl_invariant tilesOk); [done |].
  intros x op. apply step_tilesOk.
Qed.

Lemma step_scoreboardOk (s : State) (op : Op) :
  scoreboardOk s → scoreboardOk (step cfg dictionary s op).
Proof.
  intros Hsb.
  destruct (opEndsRound cfg dictionary s op) eqn:Hend.
  - destruct op as [key | | r]; simpl in *; try done.
    apply roundEnds_spec in Hend as (Hacc & Hw & Hend).
    rewrite (submitGuess_accepted cfg dictionary r s Hacc).
    destruct (activeTiles_nonempty cfg dictionary s Hacc Hw) as (tile & row & ->).
    destruct (flipTiles_frame cfg s) as ((_ & _ & _ & Hb & _) & _).
    assert (scoreboardOk (flipTiles cfg s)) as Hsb1
      by (unfold scoreboardOk; by rewrite Hb).
    unfold checkWinLose.
    assert (∀ x, scoreboardOk x → scoreboardOk (initialize dictionary r x)) as Hinit.
    { intros x Hx. unfold scoreboardOk.
      destruct (initialize_spec dictionary r x) as (_ & _ & _ & _ & -> & _).
      by apply updateScore_scoreboardOk. }
    cbv zeta. rewrite playAnimation_noCallback.
    destruct (word_eqb _ _); [by apply Hinit |].
    destruct (forallb _ _); [| done].
    apply Hinit. by destruct (0 <? score (flipTiles cfg s))%Z.
  - destruct (step_same_round cfg dictionary s op Hend) as [(_ & _ & _ & Hb & _) _].
    unfold scoreboardOk. by rewrite Hb.
Qed.

End Editing.

(** A new game satisfies the invariants, whatever the store held. *)
Lemma newGame_invariants (cfg : Config) (dictionary : list word)
    (stored : option string) (best : Z) (r : nat) :
  tilesOk (newGame cfg dictionary stored best r) ∧
  scoreboardOk (newGame cfg dictionary stored best r) ∧
  score (newGame cfg dictionary stored best r) = 0%Z.
Proof.
  split; [apply initialize_tilesOk |].
  unfold newGame, scoreboardOk.
  match goal with |- context [initialize dictionary r ?x] =>
    destruct (initialize_spec dictionary r x) as (-> & _ & _ & _ & -> & _) end.
  split; [| done].
  apply updateScore_scoreboardOk. split; simpl; eauto.
Qed.

(** With the configured reward and penalty the current score is never
    negative. *)
Lemma step_score_nonneg (dictionary : list word) (s : State) (op : Op) :
  (0 ≤ score s)%Z → (0 ≤ score (step config dictionary s op))%Z.
Proof.
  intros Hpos.
  destruct (opEndsRound config dictionary s op) eqn:Hend.
  - destruct op as [key | | r]; simpl in *; try done.
    apply roundEnds_spec in Hend as (Hacc & Hw & [Heq | [Hne Hfull]]).
    + destruct (submitGuess_won config dictionary r s Hacc Hw Heq) as (-> & _).
      simpl. lia.
    + destruct (submitGuess_lost config dictionary r s Hacc Hw Hne Hfull)
        as (-> & _).
      simpl. destruct (Z.ltb_spec 0 (score s)); simpl; lia.
  - destruct (step_same_round config dictionary s op Hend) as [(_ & -> & _) _].
    done.
Qed.

(** ** The operations on the sample game *)

Lemma submitGuess_rejected_no_change_witness :
  trace (submitGuess config sampleDictionary 0 game0)
  = [Alert NotEnoughLetters 1000; Animation "shake" [] 0] ∧
  trace (submitGuess config sampleDictionary 0 typedKorka)
  = [Alert NoSuchWord 1000; Animation "shake" [0; 1; 2; 3; 4] 0] ∧
  tiles (submitGuess config sampleDictionary 0 typedKorka) = tiles typedKorka.
Proof.
  assert (length (activeTiles game0) ≠ wordLength config) as Hshort
    by (vm_compute; lia).
  assert (guessedWord typedKorka ∉ sampleDictionary) as Hunknown.
  { intros H%existsb_word_eqb. vm_compute in H. discriminate. }
  destruct (submitGuess_rejected_no_change config sampleDictionary 0 game0
              (or_introl Hshort)) as (_ & _ & _ & _ & _ & Ht & _).
  destruct (submitGuess_rejected_no_change config sampleDictionary 0 typedKorka
              (or_intror Hunknown)) as (Htiles & _ & _ & _ & _ & _ & Ht').
  split; [exact (Ht Hshort) | split; [exact (Ht' eq_refl) | exact Htiles]].
Defined.


(** The guard of [#checkWinLose] is [score > 0], not a clamp: with a
    penalty of 3 a lost round would take the score of [lastRow] from 2
    to -1.  The configured penalty is 1, for which guard and clamp agree
    on every score that is not negative. *)
Example penalty_three_goes_negative :
  score lastRow = 2%Z ∧
  score (submitGuess configPenalty3 sampleDictionary 1 lastRow) = (-1)%Z.
Proof. split; vm_compute; reflexivity. Qed.


Lemma best_score_only_rises_witness :
  (highscore typedBorka
   ≤ highscore (run config sampleDictionary [SubmitGuess 0] typedBorka))%Z ∧
  highscore (step config sampleDictionary typedBorka (SubmitGuess 0)) = 2%Z.
Proof.
  destruct (best_score_only_rises config sampleDictionary
              [SubmitGuess 0] (SubmitGuess 0) typedBorka) as [Hmono Hstep].
  split; [exact Hmono |].
  assert (scoreboardOk typedBorka) as Hsb by (split; vm_compute; eauto).
  specialize (Hstep Hsb).
  assert (opEndsRound config sampleDictionary typedBorka (SubmitGuess 0)
          && (highscore typedBorka
              <? score (step config sampleDictionary typedBorka (SubmitGuess 0)))%Z
          = true) as Hcond by (vm_compute; reflexivity).
  cbv zeta in Hstep. rewrite Hcond in Hstep.
  destruct Hstep as [Hh _].
  assert (score (step config sampleDictionary typedBorka (SubmitGuess 0)) = 2%Z)
    as Hs by (vm_compute; reflexivity).
  rewrite Hs in Hh. exact Hh.
Defined.


Lemma correct_key_stays_correct_witness :
  ∃ k', keys (run config sampleDictionary (guessWord borko 0) afterKorab) !! 8
        = Some k' ∧
        "wrong-spot" ∈ classList k' ∧ keyStatus k' = Some Correct.
Proof.
  destruct (correct_key_stays_correct config sampleDictionary
              (guessWord borko 0) afterKorab 8
              (mkKey [L_O] ["key"; "correct-spot"]))
    as (k' & Hk' & _ & _ & Hst & _).
  - vm_compute. repeat split.
  - vm_compute; reflexivity.
  - apply list_elem_of_In. simpl. tauto.
  - exists k'. split; [exact Hk' |]. split; [| exact Hst].
    vm_compute in Hk'. injection Hk' as <-.
    apply list_elem_of_In. simpl. tauto.
Defined.

Lemma committed_rows_immutable_witness :
  tiles (pressKey config L_B afterKorab) !! 0
  = Some (mkTile [L_K] (Some L_K) (Some "wrong-spot")) ∧
  tiles (deleteKey (pressKey config L_B afterKorab)) !! 0
  = Some (mkTile [L_K] (Some L_K) (Some "wrong-spot")).
Proof.
  split.
  - apply (committed_rows_immutable config L_B afterKorab 0).
    + vm_compute; reflexivity.
    + vm_compute; reflexivity.
    + vm_compute. eauto.
  - apply (committed_rows_immutable config L_B (pressKey config L_B afterKorab) 0).
    + vm_compute; reflexivity.
    + vm_compute; reflexivity.
    + vm_compute. eauto.
Defined.

(** ** The grid as committed rows, current row and blank tiles *)

Section MoreArrayLemmas.
Context {A : Type} (p : A → bool).

Lemma filterFrom_app (l1 l2 : list A) (i : nat) :
  filterFrom p i (l1 ++ l2)
  = filterFrom p i l1 ++ filterFrom p (i + length l1) l2.
Proof.
  revert i. induction l1 as [|x l1 IH]; intros i; simpl.
  - by rewrite Nat.add_0_r.
  - rewrite IH. replace (S i + length l1) with (i + S (length l1)) by lia.
    by destruct (p x).
Qed.

Lemma filterFrom_none (l : list A) (i : nat) :
  forallb (λ x, negb (p x)) l = true → filterFrom p i l = [].
Proof.
  revert i. induction l as [|x l IH]; intros i; simpl; [done |].
  intros [Hx Hl]%andb_true_iff. apply negb_true_iff in Hx. rewrite Hx.
  by apply IH.
Qed.

Lemma filterFrom_all (l : list A) (i : nat) :
  forallb p l = true → filterFrom p i l = seq i (length l).
Proof.
  revert i. induction l as [|x l IH]; intros i; simpl; [done |].
  intros [Hx Hl]%andb_true_iff. rewrite Hx. f_equal. by apply IH.
Qed.

Lemma findIdx_none (l : list A) :
  forallb (λ x, negb (p x)) l = true → findIdx p l = None.
Proof.
  induction l as [|x l IH]; simpl; [done |].
  intros [Hx Hl]%andb_true_iff. apply negb_true_iff in Hx. rewrite Hx.
  by rewrite IH.
Qed.

Lemma findIdx_app_none (l1 l2 : list A) :
  forallb (λ x, negb (p x)) l1 = true →
  findIdx p (l1 ++ l2) = (λ j, length l1 + j) <$> findIdx p l2.
Proof.
  induction l1 as [|x l1 IH]; simpl.
  - intros _. by destruct (findIdx p l2).
  - intros [Hx Hl]%andb_true_iff. apply negb_true_iff in Hx. rewrite Hx.
    rewrite IH by done. by destruct (findIdx p l2).
Qed.

Lemma findLastIdx_none (l : list A) :
  forallb (λ x, negb (p x)) l = true → findLastIdx p l = None.
Proof.
  induction l as [|x l IH]; simpl; [done |].
  intros [Hx Hl]%andb_true_iff. apply negb_true_iff in Hx.
  by rewrite IH, Hx.
Qed.

Lemma findLastIdx_app_none (l1 l2 : list A) :
  forallb (λ x, negb (p x)) l2 = true →
  findLastIdx p (l1 ++ l2) = findLastIdx p l1.
Proof.
  intros H2. induction l1 as [|x l1 IH]; simpl.
  - by apply findLastIdx_none.
  - by rewrite IH.
Qed.

Lemma findLastIdx_app_some (l1 l2 : list A) (j : nat) :
  findLastIdx p l2 = Some j →
  findLastIdx p (l1 ++ l2) = Some (length l1 + j).
Proof.
  intros H2. induction l1 as [|x l1 IH]; simpl; [done |].
  by rewrite IH.
Qed.

Lemma findLastIdx_snoc (l : list A) (x : A) :
  p x = true → findLastIdx p (l ++ [x]) = Some (length l).
Proof.
  intros Hx. rewrite (findLastIdx_app_some l [x] 0).
  - by rewrite Nat.add_0_r.
  - simpl. by rewrite Hx.
Qed.

End MoreArrayLemmas.

Lemma isBlank_eq (t : Tile) : isBlank t = true ↔ t = blankTile.
Proof.
  split; [| by intros ->].
  destruct t as [[|x tx] [c|] [st|]]; try done.
Qed.

Lemma forallb_isBlank (ts : list Tile) :
  forallb isBlank ts = true ↔ ts = replicate (length ts) blankTile.
Proof.
  induction ts as [|t ts IH]; simpl; [done |].
  rewrite andb_true_iff, isBlank_eq, IH. split.
  - intros [-> Hts]. by rewrite <- Hts.
  - intros [= -> Hts]. by rewrite <- Hts.
Qed.

Lemma isTyped_not_committed (t : Tile) : isTyped t = true → isCommitted t = false.
Proof.
  unfold isTyped, isCommitted, isActive, tileStatus.
  intros [Hl Ha]%andb_true_iff. rewrite Hl. simpl.
  destruct (dataset_state t) as [a|]; [| done].
  apply String.eqb_eq in Ha as ->. done.
Qed.

Lemma isCommitted_not_active (t : Tile) : isCommitted t = true → isActive t = false.
Proof.
  intros [_ Hst]%andb_true_iff. apply classified_not_active.
  unfold classified. by destruct (tileStatus t).
Qed.

Lemma isCommitted_has_letter (t : Tile) : isCommitted t = true → letterIsNil t = false.
Proof.
  intros [Hl _]%andb_true_iff. unfold letterIsString, letterIsNil in *.
  by destruct (dataset_letter t).
Qed.

Lemma isTyped_has_letter (t : Tile) : isTyped t = true → letterIsNil t = false.
Proof.
  intros [Hl _]%andb_true_iff. unfold letterIsString, letterIsNil in *.
  by destruct (dataset_letter t).
Qed.

(** The grid has its shape exactly when it splits into the three parts. *)
Lemma bufferThenBlanks_split (ts : list Tile) :
  bufferThenBlanks ts = true ↔
  ∃ bs n, ts = bs ++ replicate n blankTile ∧ forallb isTyped bs = true.
Proof.
  split.
  - induction ts as [|t ts IH]; simpl.
    + intros _. by exists [], 0.
    + destruct (isTyped t) eqn:Ht.
      * intros (bs & n & -> & Hbs)%IH. exists (t :: bs), n. simpl.
        by rewrite Ht, Hbs.
      * rewrite andb_true_iff, isBlank_eq, forallb_isBlank.
        intros [-> Hts]. exists [], (S (length ts)). simpl. by rewrite <- Hts.
  - intros (bs & n & -> & Hbs).
    induction bs as [|t bs IH]; simpl.
    + destruct n as [|n]; simpl; [done |].
      apply forallb_isBlank. by rewrite length_replicate.
    + simpl in Hbs. apply andb_true_iff in Hbs as [Ht Hbs]. rewrite Ht.
      by apply IH.
Qed.

Lemma gridShape_split (ts : list Tile) :
  gridShape ts = true ↔
  ∃ cs bs n, ts = cs ++ bs ++ replicate n blankTile ∧
             forallb isCommitted cs = true ∧ forallb isTyped bs = true.
Proof.
  split.
  - induction ts as [|t ts IH]; simpl.
    + intros _. by exists [], [], 0.
    + destruct (isCommitted t) eqn:Ht.
      * intros (cs & bs & n & -> & Hcs & Hbs)%IH.
        exists (t :: cs), bs, n. simpl. by rewrite Ht, Hcs.
      * intros H. apply (bufferThenBlanks_split (t :: ts)) in H
          as (bs & n & Heq & Hbs).
        by exists [], bs, n.
  - intros (cs & bs & n & -> & Hcs & Hbs).
    induction cs as [|t cs IH]; simpl.
    + assert (bufferThenBlanks (bs ++ replicate n blankTile) = true) as Hb
        by (apply bufferThenBlanks_split; eauto).
      destruct (bs ++ replicate n blankTile) as [|t ts] eqn:Heq; [done |].
      simpl. destruct (isCommitted t) eqn:Ht; [| done].
      destruct bs as [|b bs]; simpl in Heq.
      * destruct n; simplify_eq/=.
      * simplify_eq/=. apply andb_true_iff in Hbs as [Hb' _].
        by rewrite (isTyped_not_committed _ Hb') in Ht.
    + simpl in Hcs. apply andb_true_iff in Hcs as [Ht Hcs]. rewrite Ht.
      by apply IH.
Qed.

Lemma forallb_imp {A} (p q : A → bool) (l : list A) :
  (∀ x, p x = true → q x = true) → forallb p l = true → forallb q l = true.
Proof.
  intros H. induction l as [|x l IH]; simpl; [done |].
  intros [Hx Hl]%andb_true_iff. by rewrite (H x Hx), IH.
Qed.

Lemma forallb_replicate {A} (p : A → bool) (n : nat) (x : A) :
  p x = true → forallb p (replicate n x) = true.
Proof. intros Hx. induction n as [|n IH]; simpl; [done | by rewrite Hx, IH]. Qed.

(** What the engine reads from a grid that has its shape. *)
Lemma shape_view (s : State) (cs bs : list Tile) (n : nat) :
  tiles s = cs ++ bs ++ replicate n blankTile →
  forallb isCommitted cs = true → forallb isTyped bs = true →
  activeTiles s = seq (length cs) (length bs) ∧
  findIdx letterIsNil (tiles s)
  = (if n =? 0 then None else Some (length cs + length bs)) ∧
  findLastIdx isActive (tiles s)
  = (if length bs =? 0 then None else Some (length cs + length bs - 1)) ∧
  tilesOk s ∧
  isGridFull s = (n =? 0) ∧
  Some <$> guessedWord s = dataset_letter <$> bs.
Proof.
  intros Hts Hcs Hbs.
  assert (forallb (λ t, negb (isActive t)) cs = true) as Hcs_na.
  { eapply forallb_imp; [| exact Hcs]. intros t Ht.
    by rewrite (isCommitted_not_active t Ht). }
  assert (forallb (λ t, negb (letterIsNil t)) cs = true) as Hcs_l.
  { eapply forallb_imp; [| exact Hcs]. intros t Ht.
    by rewrite (isCommitted_has_letter t Ht). }
  assert (forallb (λ t, negb (letterIsNil t)) bs = true) as Hbs_l.
  { eapply forallb_imp; [| exact Hbs]. intros t Ht.
    by rewrite (isTyped_has_letter t Ht). }
  assert (forallb isActive bs = true) as Hbs_a.
  { eapply forallb_imp; [| exact Hbs]. by intros t [_ ?]%andb_true_iff. }
  assert (forallb (λ t, negb (isActive t)) (replicate n blankTile) = true) as Hn_na
    by (by apply forallb_replicate).
  assert (Hact : activeTiles s = seq (length cs) (length bs)).
  { unfold activeTiles, filterIdx. rewrite Hts, !filterFrom_app.
    rewrite (filterFrom_none _ cs) by done.
    rewrite (filterFrom_none _ (replicate n blankTile)) by done.
    rewrite (filterFrom_all _ bs) by done. simpl. by rewrite app_nil_r. }
  assert (Hok : tilesOk s).
  { unfold tilesOk. rewrite Hts, !forallb_app.
    rewrite (forallb_imp isCommitted tileOk cs), (forallb_imp isTyped tileOk bs),
      (forallb_replicate tileOk n blankTile); try done.
    - intros t [Hl _]%andb_true_iff. unfold tileOk, letterIsString in *.
      destruct (dataset_state t); [| done]. by destruct (dataset_letter t).
    - intros t [Hl _]%andb_true_iff. unfold tileOk, letterIsString in *.
      destruct (dataset_state t); [| done]. by destruct (dataset_letter t). }
  split; [exact Hact |]. split; [| split; [| split; [exact Hok | split]]].
  - rewrite Hts, findIdx_app_none, findIdx_app_none by done.
    destruct n as [|n]; simpl; [done |]. f_equal. lia.
  - rewrite Hts, app_assoc, findLastIdx_app_none by done.
    destruct (decide (bs = [])) as [-> | Hne].
    + rewrite app_nil_r. simpl. by apply findLastIdx_none.
    + destruct (exists_last Hne) as (bs' & b & ->).
      rewrite app_assoc, findLastIdx_snoc.
      * rewrite !length_app. simpl.
        replace (length bs' + 1 =? 0) with false by (symmetry; apply Nat.eqb_neq; lia).
        f_equal. lia.
      * rewrite forallb_app in Hbs_a. apply andb_true_iff in Hbs_a as [_ Hb].
        simpl in Hb. by apply andb_true_iff in Hb as [Hb _].
  - unfold isGridFull. rewrite Hts, !forallb_app.
    rewrite (forallb_imp isCommitted letterIsString cs),
      (forallb_imp isTyped letterIsString bs); try done;
      try (by intros t [Hl _]%andb_true_iff).
    simpl. by destruct n.
  - pose proof (guessedWord_row s Hok) as Hrow. rewrite Hact in Hrow.
    apply list_eq. intros i. rewrite !list_lookup_fmap.
    destruct (decide (i < length bs)) as [Hi | Hi].
    + assert (seq (length cs) (length bs) !! i = Some (length cs + i)) as Hseq
        by (by apply lookup_seq_lt).
      destruct (Forall2_lookup_l _ _ _ _ _ Hrow Hseq) as (c & Hc & t & Ht & Htc).
      rewrite Hc. simpl.
      rewrite Hts, lookup_app_r in Ht by lia.
      replace (length cs + i - length cs) with i in Ht by lia.
      rewrite lookup_app_l in Ht by done. rewrite Ht. simpl. by rewrite Htc.
    + apply Forall2_length in Hrow. rewrite length_seq in Hrow.
      rewrite (lookup_ge_None_2 (guessedWord s)) by lia.
      rewrite (lookup_ge_None_2 bs) by lia. done.
Qed.

Lemma set_tiles_same (s : State) : set_tiles (tiles s) s = s.
Proof. by destruct s. Qed.

Section ShapeSteps.

Variable cfg : Config.

Lemma pressKey_shape (key : letter) (s : State) (cs bs : list Tile) (n : nat) :
  tiles s = cs ++ bs ++ replicate (S n) blankTile →
  forallb isCommitted cs = true → forallb isTyped bs = true →
  length bs < wordLength cfg →
  pressKey cfg key s
  = set_tiles (cs ++ (bs ++ [setTile (toLocaleUpperCase key) blankTile])
                  ++ replicate n blankTile) s.
Proof.
  intros Hts Hcs Hbs Hlen.
  destruct (shape_view s cs bs (S n) Hts Hcs Hbs) as (Hact & Hfind & _).
  unfold pressKey. rewrite Hact, length_seq.
  destruct (Nat.leb_spec (wordLength cfg) (length bs)); [lia |].
  rewrite Hfind. simpl. unfold alterTile. f_equal.
  rewrite Hts, alter_app_r.
  replace (length bs) with (length bs + 0) at 1 by lia.
  rewrite alter_app_r. simpl. by rewrite <- app_assoc.
Qed.

Lemma deleteKey_shape (s : State) (cs bs : list Tile) (b : Tile) (n : nat) :
  tiles s = cs ++ (bs ++ [b]) ++ replicate n blankTile →
  forallb isCommitted cs = true → forallb isTyped (bs ++ [b]) = true →
  deleteKey s = set_tiles (cs ++ bs ++ replicate (S n) blankTile) s.
Proof.
  intros Hts Hcs Hbs.
  destruct (shape_view s cs (bs ++ [b]) n Hts Hcs Hbs) as (_ & _ & Hlast & _).
  unfold deleteKey. rewrite Hlast, length_app. simpl.
  replace (length bs + 1 =? 0) with false by (symmetry; apply Nat.eqb_neq; lia).
  unfold alterTile. f_equal.
  replace (length cs + (length bs + 1) - 1) with (length cs + (length bs + 0)) by lia.
  rewrite Hts, alter_app_r, <- !app_assoc, alter_app_r. done.
Qed.

(** The flips of an accepted row commit it: the tiles of the row keep
    their letters and become committed, every other tile is as before. *)
Lemma flipTiles_shape (s : State) (cs bs : list Tile) (n : nat) :
  tiles s = cs ++ bs ++ replicate n blankTile →
  forallb isCommitted cs = true → forallb isTyped bs = true →
  onKeyboard s (guessedWord s) →
  ∃ bs', tiles (flipTiles cfg s) = cs ++ bs' ++ replicate n blankTile ∧
         length bs' = length bs ∧
         forallb isCommitted bs' = true ∧
         dataset_letter <$> bs' = dataset_letter <$> bs.
Proof.
  intros Hts Hcs Hbs Hkeys.
  destruct (shape_view s cs bs n Hts Hcs Hbs) as (Hact & _ & _ & Hok & _ & Hg).
  set (flipped := λ (j : nat) (t : Tile),
         from_option (λ c, withState (spotOf (targetWord s) j c) t) t
                     (dataset_letter t)).
  exists (imap flipped bs).
  assert (Hletter : ∀ j t, bs !! j = Some t →
            ∃ c, dataset_letter t = Some c ∧ hasKey s c = true).
  { intros j t Hj.
    assert ((Some <$> guessedWord s) !! j = Some (dataset_letter t)) as Hgj
      by (by rewrite Hg, list_lookup_fmap, Hj).
    rewrite list_lookup_fmap in Hgj.
    destruct (guessedWord s !! j) as [c|] eqn:Hc; [| done].
    simpl in Hgj. exists c. split; [congruence |].
    unfold onKeyboard in Hkeys. rewrite forallb_forall in Hkeys.
    apply Hkeys, list_elem_of_In. by eapply list_elem_of_lookup_2. }
  split; [| split; [by rewrite length_imap | split]].
  - apply list_eq. intros i.
    unfold flipTiles, playAnimation. rewrite Hact.
    set (s0 := emit _ s).
    destruct (decide (length cs ≤ i < length cs + length bs)) as [Hi | Hi].
    + destruct (lookup_lt_is_Some_2 bs (i - length cs)) as [t Ht]; [lia |].
      destruct (Hletter _ _ Ht) as (c & Hc & Hhas).
      rewrite (flips_at _ s0 (i - length cs) i t c).
      * rewrite lookup_app_r by lia. rewrite lookup_app_l
          by (rewrite length_imap; lia).
        rewrite list_lookup_imap, Ht. simpl. unfold flipped. by rewrite Hc.
      * rewrite imap_pair_snd. apply NoDup_seq.
      * apply list_elem_of_lookup. exists (i - length cs).
        rewrite list_lookup_imap, lookup_seq_lt by lia. simpl.
        do 2 f_equal. lia.
      * simpl. rewrite Hts, lookup_app_r by lia.
        by rewrite lookup_app_l by lia.
      * done.
      * simpl. unfold hasKey in Hhas.
        by destruct (findIdx (keyIs c) (keys s)).
    + rewrite flips_other.
      * simpl. rewrite Hts.
        destruct (decide (i < length cs)).
        -- by rewrite !lookup_app_l by lia.
        -- rewrite !(lookup_app_r cs) by lia.
           rewrite (lookup_app_r bs) by lia.
           rewrite (lookup_app_r (imap flipped bs))
             by (rewrite length_imap; lia).
           by rewrite length_imap.
      * rewrite imap_pair_snd. intros Hin%elem_of_seq. lia.
  - apply forallb_forall. intros t' Hin%list_elem_of_In.
    apply list_elem_of_lookup in Hin as (j & Hj).
    rewrite list_lookup_imap in Hj.
    destruct (bs !! j) as [t|] eqn:Ht; [| done].
    simpl in Hj. injection Hj as <-.
    destruct (Hletter _ _ Ht) as (c & Hc & _).
    unfold flipped. rewrite Hc. simpl.
    unfold isCommitted, letterIsString, tileStatus, withState, spotOf. simpl.
    rewrite Hc.
    destruct (bool_decide (targetWord s !! j = Some c)); [reflexivity |].
    destruct (bool_decide (c ∈ targetWord s)); reflexivity.
  - apply list_eq. intros j. rewrite !list_lookup_fmap, list_lookup_imap.
    destruct (bs !! j) as [t|]; [| done]. simpl. f_equal.
    unfold flipped. by destruct (dataset_letter t) eqn:E.
Qed.

End ShapeSteps.

(** ** Typing into the current row *)

Lemma some_fmap_inj {A} (l1 l2 : list A) : Some <$> l1 = Some <$> l2 → l1 = l2.
Proof. apply (inj (fmap Some)). Qed.

Lemma filterFrom_nil {A} (p : A → bool) (l : list A) (i : nat) :
  filterFrom p i l = [] → forallb (λ x, negb (p x)) l = true.
Proof.
  revert i. induction l as [|x l IH]; intros i; simpl; [done |].
  destruct (p x); [done |]. apply IH.
Qed.

Lemma matchesLetter_capital (k : word) (c : letter) :
  matchesLetter k = Some c → isCapital (toLocaleUpperCase c) = true.
Proof.
  unfold matchesLetter, isCapital, toLocaleUpperCase.
  destruct k as [|c' [|? ?]]; try done.
  destruct (N.leb_spec 0x430 c'), (N.leb_spec c' 0x44F),
    (N.leb_spec 0x410 c'), (N.leb_spec c' 0x42F); simpl; try done;
    intros [= <-]; apply andb_true_iff; split; apply N.leb_le;
    repeat match goal with
           | |- context [(if ?b then _ else _)] =>
               let E := fresh in destruct b eqn:E
           | H : (_ <=? _)%N = true |- _ => apply N.leb_le in H
           | H : (_ <=? _)%N = false |- _ => apply N.leb_gt in H
           | H : (_ && _)%bool = true |- _ => apply andb_true_iff in H as [? ?]
           | H : (_ && _)%bool = false |- _ => apply andb_false_iff in H as [? | ?]
           end; lia.
Qed.

Section Typing.

Variable cfg : Config.

Lemma gridOk_view (s : State) :
  gridOk cfg s →
  ∃ cs bs n, tiles s = cs ++ bs ++ replicate n blankTile ∧
             forallb isCommitted cs = true ∧ forallb isTyped bs = true ∧
             length bs ≤ wordLength cfg ∧ length (activeTiles s) = length bs.
Proof.
  intros [(cs & bs & n & Hts & Hcs & Hbs)%gridShape_split Hlen].
  destruct (shape_view s cs bs n Hts Hcs Hbs) as (Hact & _).
  rewrite Hact, length_seq in Hlen.
  exists cs, bs, n. rewrite Hact, length_seq. done.
Qed.

Lemma gridOk_intro (s : State) (cs bs : list Tile) (n : nat) :
  tiles s = cs ++ bs ++ replicate n blankTile →
  forallb isCommitted cs = true → forallb isTyped bs = true →
  length bs ≤ wordLength cfg → gridOk cfg s.
Proof.
  intros Hts Hcs Hbs Hlen. split.
  - apply gridShape_split. by exists cs, bs, n.
  - destruct (shape_view s cs bs n Hts Hcs Hbs) as (-> & _).
    by rewrite length_seq.
Qed.

(** X1.  For a key the controller forwards (one letter а..я or А..Я),
    while the current row has room and the grid a free tile, [pressKey]
    appends the capital of the key, a letter А..Я, to the guess being
    typed. *)
Theorem pressKey_appends_letter (key : letter) (s : State) :
  matchesLetter [key] = Some key →
  gridOk cfg s → length (activeTiles s) < wordLength cfg →
  isGridFull s = false →
  guessedWord (pressKey cfg key s)
  = guessedWord s ++ [toLocaleUpperCase key] ∧
  isCapital (toLocaleUpperCase key) = true ∧
  length (activeTiles (pressKey cfg key s)) = S (length (activeTiles s)).
Proof.
  intros Hkey.
  intros (cs & bs & n & Hts & Hcs & Hbs & _ & Hact)%gridOk_view Hroom Hfree.
  destruct (shape_view s cs bs n Hts Hcs Hbs) as (_ & _ & _ & _ & Hfull & Hg).
  rewrite Hfull in Hfree. destruct n as [|n]; [done |].
  rewrite Hact in Hroom |- *.
  rewrite (pressKey_shape cfg key s cs bs n Hts Hcs Hbs Hroom).
  set (s' := set_tiles _ s).
  assert (forallb isTyped (bs ++ [setTile (toLocaleUpperCase key) blankTile])
          = true) as Hbs'
    by (by rewrite forallb_app, Hbs).
  destruct (shape_view s' cs _ n eq_refl Hcs Hbs') as (Hact' & _ & _ & _ & _ & Hg').
  split; [| split].
  - apply some_fmap_inj. rewrite Hg', !fmap_app, Hg. done.
  - by apply (matchesLetter_capital [key]).
  - rewrite Hact', !length_seq, length_app. simpl. lia.
Qed.

Lemma isGridFull_no_free_tile (s : State) :
  isGridFull s = true → findIdx letterIsNil (tiles s) = None.
Proof.
  intros H. apply findIdx_none. eapply forallb_imp; [| exact H].
  intros t. unfold letterIsString, letterIsNil. by destruct (dataset_letter t).
Qed.

Lemma pressKey_noop (key : letter) (s : State) :
  wordLength cfg ≤ length (activeTiles s) ∨ isGridFull s = true →
  pressKey cfg key s = s.
Proof.
  intros H. unfold pressKey.
  destruct (Nat.leb_spec (wordLength cfg) (length (activeTiles s))); [done |].
  destruct H as [H | H]; [lia |].
  by rewrite (isGridFull_no_free_tile s H).
Qed.

(** X2.  [pressKey] does nothing when the current row already holds
    [wordLength] letters, or when no tile of the grid is free: the state,
    and with it the guess being typed, is the same. *)
Theorem pressKey_ignored_when_full (key : letter) (s : State) :
  wordLength cfg ≤ length (activeTiles s) ∨ isGridFull s = true →
  pressKey cfg key s = s ∧
  guessedWord (pressKey cfg key s) = guessedWord s.
Proof. intros H. by rewrite (pressKey_noop key s H). Qed.

Lemma deleteKey_empty (s : State) : activeTiles s = [] → deleteKey s = s.
Proof.
  intros H. unfold deleteKey.
  by rewrite (findLastIdx_none _ _ (filterFrom_nil _ _ _ H)).
Qed.

(** X3.  [deleteKey] removes the last letter of the guess being typed; on
    an empty row it does nothing. *)
Theorem deleteKey_removes_last_letter (s : State) :
  gridOk cfg s →
  guessedWord (deleteKey s)
  = take (length (guessedWord s) - 1) (guessedWord s) ∧
  (activeTiles s = [] → deleteKey s = s).
Proof.
  intros (cs & bs & n & Hts & Hcs & Hbs & _ & Hact)%gridOk_view.
  split; [| apply deleteKey_empty].
  destruct (shape_view s cs bs n Hts Hcs Hbs) as (Hrow & _ & _ & _ & _ & Hg).
  destruct (decide (bs = [])) as [-> | Hne].
  - rewrite deleteKey_empty by (by rewrite Hrow).
    destruct (guessedWord s); [done | discriminate].
  - destruct (exists_last Hne) as (bs' & b & ->).
    rewrite (deleteKey_shape s cs bs' b n Hts Hcs Hbs).
    set (s' := set_tiles _ s).
    assert (forallb isTyped bs' = true) as Hbs'.
    { rewrite forallb_app in Hbs. by apply andb_true_iff in Hbs as [? _]. }
    destruct (shape_view s' cs bs' (S n) eq_refl Hcs Hbs')
      as (_ & _ & _ & _ & _ & Hg').
    apply some_fmap_inj. rewrite Hg', fmap_take, Hg, fmap_app.
    assert (length (guessedWord s) = length bs' + 1) as ->.
    { rewrite <- (length_fmap Some), Hg, length_fmap, length_app. done. }
    rewrite take_app_length'; [done |]. rewrite length_fmap. lia.
Qed.

(** X4.  A letter typed with [pressKey] is taken back by [deleteKey]: the
    state is the one before the key. *)
Theorem deleteKey_undoes_pressKey (key : letter) (s : State) :
  gridOk cfg s → length (activeTiles s) < wordLength cfg →
  isGridFull s = false →
  deleteKey (pressKey cfg key s) = s.
Proof.
  intros (cs & bs & n & Hts & Hcs & Hbs & _ & Hact)%gridOk_view Hroom Hfree.
  destruct (shape_view s cs bs n Hts Hcs Hbs) as (_ & _ & _ & _ & Hfull & _).
  rewrite Hfull in Hfree. destruct n as [|n]; [done |].
  rewrite Hact in Hroom.
  rewrite (pressKey_shape cfg key s cs bs n Hts Hcs Hbs Hroom).
  set (s' := set_tiles _ s).
  assert (forallb isTyped (bs ++ [setTile (toLocaleUpperCase key) blankTile])
          = true) as Hbs'
    by (by rewrite forallb_app, Hbs).
  rewrite (deleteKey_shape s' cs bs _ n eq_refl Hcs Hbs').
  unfold s'. destruct s as [ts ks tw sc hs sb ls tr]. simpl in Hts.
  subst ts. reflexivity.
Qed.

End Typing.

(** ** Rows and rounds *)

Lemma resetTile_all (ts : list Tile) :
  resetTile <$> ts = replicate (length ts) blankTile.
Proof. induction ts as [|t ts IH]; csimpl; [done | by rewrite IH]. Qed.

Lemma lettersOf_length (s s' : State) :
  lettersOf s' = lettersOf s → length (tiles s') = length (tiles s).
Proof.
  unfold lettersOf. intros H.
  by rewrite <- (length_fmap dataset_letter (tiles s')), H, length_fmap.
Qed.

Lemma keysGrow_names (s s' : State) :
  keysGrow s s' → dataset_key <$> keys s' = dataset_key <$> keys s.
Proof.
  unfold keysGrow. induction 1 as [|k k' ks ks' [Hk _] _ IH]; csimpl; [done |].
  by rewrite Hk, IH.
Qed.

Lemma key_reset_names (ks : list Key) :
  dataset_key <$> (key_reset <$> ks) = dataset_key <$> ks.
Proof. induction ks as [|k ks IH]; csimpl; [done | by rewrite IH]. Qed.

Lemma findKey_names (c : letter) (ks ks' : list Key) :
  dataset_key <$> ks' = dataset_key <$> ks →
  findIdx (keyIs c) ks' = findIdx (keyIs c) ks.
Proof.
  revert ks'. induction ks as [|k ks IH]; intros [|k' ks'] H; simplify_eq/=;
    [done |].
  unfold keyIs at 1 3. rewrite H. by rewrite (IH ks').
Qed.

Lemma hasKey_names (c : letter) (s s' : State) :
  dataset_key <$> keys s' = dataset_key <$> keys s → hasKey s' c = hasKey s c.
Proof. intros H. unfold hasKey. by rewrite (findKey_names c _ _ H). Qed.

Lemma dictionaryOnKeyboard_names (dictionary : list word) (s s' : State) :
  dataset_key <$> keys s' = dataset_key <$> keys s →
  dictionaryOnKeyboard dictionary s → dictionaryOnKeyboard dictionary s'.
Proof.
  intros H. unfold dictionaryOnKeyboard.
  apply forallb_imp. intros w. apply forallb_imp. intros c.
  by rewrite (hasKey_names c s s' H).
Qed.

Section Rows.

Variable cfg : Config.
Variable dictionary : list word.

Lemma accepted_onKeyboard (s : State) :
  accepted cfg dictionary s = true → dictionaryOnKeyboard dictionary s →
  onKeyboard s (guessedWord s).
Proof.
  intros [_ Hin]%accepted_spec Hdict.
  unfold dictionaryOnKeyboard in Hdict. rewrite forallb_forall in Hdict.
  apply Hdict. by apply list_elem_of_In.
Qed.

(** [#checkWinLose] either leaves the state as it is or starts a new
    round. *)
Lemma checkWinLose_cases (guess : word) (row : list nat) (r : nat) (s : State) :
  let s' := checkWinLose cfg dictionary guess row r s in
  (word_eqb guess (targetWord s) = false ∧
   forallb letterIsString (tiles s) = false ∧ s' = s) ∨
  ((word_eqb guess (targetWord s) = true ∨
    forallb letterIsString (tiles s) = true) ∧
   tiles s' = resetTile <$> tiles s ∧ keys s' = key_reset <$> keys s ∧
   targetWord s' = sampleFromArray dictionary r).
Proof.
  unfold checkWinLose. cbv zeta. rewrite playAnimation_noCallback.
  destruct (word_eqb guess (targetWord s)) eqn:Hw.
  - right. split; [by left |].
    match goal with |- context [initialize dictionary r ?x] =>
      destruct (initialize_spec dictionary r x)
        as (_ & _ & _ & _ & _ & -> & -> & ->) end.
    done.
  - destruct (forallb letterIsString (tiles s)) eqn:Hf; [| by left].
    right. split; [by right |].
    match goal with |- context [initialize dictionary r ?x] =>
      destruct (initialize_spec dictionary r x)
        as (_ & _ & _ & _ & _ & -> & -> & ->) end.
    by destruct (0 <? score s)%Z.
Qed.

Lemma step_key_names (s : State) (op : Op) :
  dataset_key <$> keys (step cfg dictionary s op) = dataset_key <$> keys s.
Proof.
  destruct (opEndsRound cfg dictionary s op) eqn:Hend.
  - destruct op as [key | | r]; simpl in *; try done.
    apply roundEnds_spec in Hend as (Hacc & Hw & _).
    rewrite (submitGuess_accepted cfg dictionary r s Hacc).
    destruct (activeTiles_nonempty cfg dictionary s Hacc Hw) as (tile & row & ->).
    destruct (flipTiles_frame cfg s) as (_ & _ & _ & Hgrow%keysGrow_names).
    destruct (checkWinLose_cases (guessedWord s) (tile :: row) r (flipTiles cfg s))
      as [(_ & _ & ->) | (_ & _ & -> & _)]; [done |].
    by rewrite key_reset_names.
  - destruct (step_same_round cfg dictionary s op Hend) as [_ Hgrow].
    by apply keysGrow_names.
Qed.

Lemma gridOk_blank (s : State) (n : nat) :
  tiles s = replicate n blankTile → gridOk cfg s.
Proof.
  intros H. apply (gridOk_intro cfg s [] [] n); try done. simpl. lia.
Qed.

Lemma step_gridOk (s : State) (op : Op) :
  gridOk cfg s → dictionaryOnKeyboard dictionary s →
  gridOk cfg (step cfg dictionary s op).
Proof.
  intros Hgrid Hdict.
  pose proof Hgrid as (cs & bs & n & Hts & Hcs & Hbs & Hlen & Hact)%gridOk_view.
  destruct (shape_view s cs bs n Hts Hcs Hbs) as (Hrow & _ & _ & _ & Hfull & _).
  destruct op as [key | | r]; simpl.
  - destruct (decide (length bs < wordLength cfg ∧ n ≠ 0)) as [[Hroom Hn] | Hno].
    + destruct n as [|n]; [done |].
      rewrite (pressKey_shape cfg key s cs bs n Hts Hcs Hbs Hroom).
      eapply (gridOk_intro cfg _ cs _ n); [done | done | |].
      * by rewrite forallb_app, Hbs.
      * rewrite length_app. simpl. lia.
    + rewrite pressKey_noop; [done |].
      rewrite Hact, Hfull. destruct n; [by right | left; lia].
  - destruct (decide (bs = [])) as [-> | Hne].
    + rewrite deleteKey_empty; [done | by rewrite Hrow].
    + destruct (exists_last Hne) as (bs' & b & ->).
      rewrite (deleteKey_shape s cs bs' b n Hts Hcs Hbs).
      rewrite forallb_app in Hbs. apply andb_true_iff in Hbs as [Hbs' _].
      eapply (gridOk_intro cfg _ cs bs' (S n)); [done | done | done |].
      rewrite length_app in Hlen. lia.
  - destruct (accepted cfg dictionary s) eqn:Hacc.
    + rewrite (submitGuess_accepted cfg dictionary r s Hacc).
      destruct (flipTiles_shape cfg s cs bs n Hts Hcs Hbs
                  (accepted_onKeyboard s Hacc Hdict))
        as (bs' & Hts' & _ & Hbs' & _).
      assert (gridOk cfg (flipTiles cfg s)) as Hflip.
      { apply (gridOk_intro cfg _ (cs ++ bs') [] n).
        - by rewrite <- app_assoc.
        - by rewrite forallb_app, Hcs, Hbs'.
        - done.
        - simpl. lia. }
      destruct (activeTiles s) as [|tile row]; [done |].
      destruct (checkWinLose_cases (guessedWord s) (tile :: row) r (flipTiles cfg s))
        as [(_ & _ & ->) | (_ & Ht & _)]; [done |].
      apply (gridOk_blank _ (length (tiles (flipTiles cfg s)))).
      by rewrite Ht, resetTile_all.
    + rewrite (submitGuess_rejected cfg dictionary r s Hacc).
      destruct Hgrid as [Hshape Hl]. by split.
Qed.

(** X5.  The grid keeps its shape under every operation when the keys
    pressed are keys the controller forwards (one letter а..я or А..Я) and
    the dictionary uses only letters of the keyboard: committed rows
    first, then the letters of the current row, at most [wordLength] of
    them, then blank tiles. *)
Theorem grid_shape_kept (ops : list Op) (s : State) :
  forallb controllerOp ops = true →
  gridOk cfg s → dictionaryOnKeyboard dictionary s →
  gridOk cfg (run cfg dictionary ops s) ∧
  dictionaryOnKeyboard dictionary (run cfg dictionary ops s) ∧
  length (guessedWord (run cfg dictionary ops s)) ≤ wordLength cfg.
Proof.
  intros _ Hgrid Hdict.
  assert (gridOk cfg (run cfg dictionary ops s) ∧
          dictionaryOnKeyboard dictionary (run cfg dictionary ops s)) as [Hg Hd].
  { apply (foldl_invariant
             (λ x, gridOk cfg x ∧ dictionaryOnKeyboard dictionary x));
      [done |].
    intros x op [Hx Hdx]. split; [by apply step_gridOk |].
    eapply dictionaryOnKeyboard_names; [apply step_key_names | done]. }
  split; [done | split; [done |]].
  destruct (gridOk_view cfg _ Hg) as (cs & bs & n & Hts & Hcs & Hbs & Hlen & _).
  destruct (shape_view _ cs bs n Hts Hcs Hbs) as (_ & _ & _ & _ & _ & Hgw).
  by rewrite <- (length_fmap Some), Hgw, length_fmap.
Qed.

End Rows.

Section Commit.

Variable cfg : Config.
Variable dictionary : list word.



(** X7.  A round that ends, won or lost, starts the next one from a clean
    interface: every tile is blank, every key has the class 'key' alone
    and keeps its name, the current row is empty, and the target is the
    word of the dictionary at the drawn index. *)
Theorem round_end_resets (r : nat) (s : State) :
  roundEnds cfg dictionary s = true →
  let s' := submitGuess cfg dictionary r s in
  tiles s' = replicate (length (tiles s)) blankTile ∧
  Forall (λ k, classList k = ["key"]) (keys s') ∧
  dataset_key <$> keys s' = dataset_key <$> keys s ∧
  activeTiles s' = [] ∧ guessedWord s' = [] ∧
  targetWord s' = sampleFromArray dictionary r ∧
  (r < length dictionary → targetWord s' ∈ dictionary).
Proof.
  intros Hend s'.
  pose proof (step_key_names cfg dictionary s (SubmitGuess r)) as Hnames.
  simpl in Hnames. fold s' in Hnames.
  apply roundEnds_spec in Hend as (Hacc & Hw & Hend).
  assert (Hs' : s' = checkWinLose cfg dictionary (guessedWord s)
                       (activeTiles s) r (flipTiles cfg s)).
  { unfold s'. rewrite (submitGuess_accepted cfg dictionary r s Hacc).
    by destruct (activeTiles_nonempty cfg dictionary s Hacc Hw)
      as (tile & row & ->). }
  destruct (flipTiles_frame cfg s) as ((Htw & _) & _ & Hl & _).
  destruct (checkWinLose_cases cfg dictionary (guessedWord s) (activeTiles s) r
              (flipTiles cfg s)) as [(Hne & Hnf & _) | (_ & Ht & Hk & Htg)].
  { rewrite Htw in Hne. apply word_eqb_neq in Hne.
    change (forallb letterIsString (tiles (flipTiles cfg s)))
      with (isGridFull (flipTiles cfg s)) in Hnf.
    rewrite (isGridFull_letters _ _ Hl) in Hnf.
    destruct Hend as [? | [_ ?]]; congruence. }
  rewrite <- Hs' in Ht, Hk, Htg.
  assert (tiles s' = replicate (length (tiles s)) blankTile) as Hblank.
  { rewrite Ht, resetTile_all. f_equal. by apply lettersOf_length. }
  destruct (shape_view s' [] [] (length (tiles s)) Hblank eq_refl eq_refl)
    as (Hrow & _ & _ & _ & _ & Hg).
  split; [done |]. split.
  { rewrite Hk. apply Forall_fmap, Forall_true. done. }
  split; [done |]. split; [done |].
  split; [by destruct (guessedWord s') |]. split; [done |].
  intros Hr. rewrite Htg. unfold sampleFromArray.
  destruct (lookup_lt_is_Some_2 dictionary r Hr) as [w Hw'].
  rewrite Hw'. simpl. by eapply list_elem_of_lookup_2.
Qed.

Lemma updateScore_covers (x : State) :
  scoreboardOk x → (score x ≤ highscore (updateScore x))%Z.
Proof.
  intros Hx. destruct (updateScore_best x Hx) as [Hup Hkeep].
  destruct (Z.lt_ge_cases (highscore x) (score x)) as [Hlt | Hge].
  - destruct (Hup Hlt) as [-> _]. lia.
  - destruct (Hkeep Hge) as [-> _]. lia.
Qed.

(** X9.  A tile whose letter has no key on the keyboard is not flipped:
    [#flipTile] returns before it classifies the tile, which stays in the
    active state and so counts for the next row. *)
Theorem tile_without_key_stays_active (s : State) (tile : nat) (t : Tile)
    (c : letter) :
  tiles s !! tile = Some t → dataset_letter t = Some c →
  isActive t = true → hasKey s c = false →
  tiles (flipTiles cfg s) !! tile = Some t ∧
  tile ∈ activeTiles (flipTiles cfg s).
Proof.
  intros Ht Hc Hact Hkey.
  assert (tiles (flipTiles cfg s) !! tile = Some t) as Hsame.
  { unfold flipTiles, playAnimation. set (s0 := emit _ s).
    cut (tiles (foldl (λ st p, flipTile p.2 p.1 st) s0
                  (imap pair (activeTiles s))) !! tile = Some t ∧
         keysGrow s0 (foldl (λ st p, flipTile p.2 p.1 st) s0
                        (imap pair (activeTiles s)))); [by intros [? _] |].
    apply (foldl_invariant
             (λ x, tiles x !! tile = Some t ∧ keysGrow s0 x)).
    - split; [done | apply keysGrow_refl].
    - intros x [index tile'] [Hx Hgrow]. simpl.
      destruct (flipTile_frame tile' index x) as (_ & _ & _ & Hgrow').
      split; [| by eapply keysGrow_trans].
      destruct (decide (tile = tile')) as [<- | Hne].
      + unfold flipTile. rewrite Hx, Hc.
        rewrite (findKey_grows c s0 x Hgrow).
        unfold hasKey in Hkey. simpl.
        by destruct (findIdx (keyIs c) (keys s)).
      + by rewrite flipTile_other. }
  split; [done |]. apply activeTiles_lookup. by exists t.
Qed.

(** X10.  The feedback of a guess is [Correct] at every position exactly
    when the guess is the target, the test by which [#checkWinLose] ends
    the round won. *)
Theorem all_correct_iff_target (s : State) :
  tilesOk s → onKeyboard s (guessedWord s) →
  length (guessedWord s) = length (targetWord s) →
  Forall (λ st, st = Some Correct) (feedback cfg s) ↔
  guessedWord s = targetWord s.
Proof.
  intros Hok Hkeys Hlen.
  rewrite (feedback_statusAt cfg s Hok Hkeys). split.
  - intros Hall. apply list_eq_same_length with (length (guessedWord s));
      [done | done |].
    intros i c t Hi Hc Ht.
    rewrite Forall_lookup in Hall.
    specialize (Hall i (Some (statusAt (targetWord s) i c))).
    rewrite list_lookup_imap, Hc in Hall. specialize (Hall eq_refl).
    unfold statusAt in Hall. rewrite Ht in Hall.
    case_bool_decide; [congruence |].
    by case_bool_decide.
  - intros Heq. rewrite Heq. apply Forall_lookup. intros i st.
    rewrite list_lookup_imap.
    destruct (targetWord s !! i) as [c|] eqn:Hc; [| done].
    simpl. intros [= <-]. unfold statusAt.
    by rewrite bool_decide_eq_true_2.
Qed.

End Commit.

(** ** The controller *)

Lemma lettersCapital_letters (s s' : State) :
  lettersOf s' = lettersOf s → lettersCapital s → lettersCapital s'.
Proof.
  unfold lettersCapital, lettersOf. intros H.
  assert (Hf : ∀ l : list Tile,
            forallb (λ t, match dataset_letter t with
                          | Some c => isCapital c
                          | None => true
                          end) l
            = forallb (λ o : option N, match o with
                                       | Some c => isCapital c
                                       | None => true
                                       end) (dataset_letter <$> l)).
  { induction l as [|t l IH]; [done |]. csimpl. by rewrite IH. }
  by rewrite !Hf, H.
Qed.

Lemma lettersCapital_blank (s : State) (n : nat) :
  tiles s = replicate n blankTile → lettersCapital s.
Proof. unfold lettersCapital. intros ->. by apply forallb_replicate. Qed.

Section Controller.

Variable cfg : Config.
Variable dictionary : list word.

Lemma submitGuess_letters (r : nat) (s : State) :
  lettersOf (submitGuess cfg dictionary r s) = lettersOf s ∨
  tiles (submitGuess cfg dictionary r s)
  = replicate (length (tiles s)) blankTile.
Proof.
  destruct (accepted cfg dictionary s) eqn:Hacc.
  - rewrite (submitGuess_accepted cfg dictionary r s Hacc).
    destruct (flipTiles_frame cfg s) as (_ & _ & Hl & _).
    destruct (activeTiles s) as [|tile row]; [by left |].
    destruct (checkWinLose_cases cfg dictionary (guessedWord s) (tile :: row) r
                (flipTiles cfg s)) as [(_ & _ & ->) | (_ & Ht & _)];
      [by left | right].
    rewrite Ht, resetTile_all. f_equal. by apply lettersOf_length.
  - left. by rewrite (submitGuess_rejected cfg dictionary r s Hacc).
Qed.

Lemma eventHandler_lettersCapital (key : option word) (r : nat) (s : State) :
  lettersCapital s → lettersCapital (eventHandler cfg dictionary key r s).
Proof.
  intros Hcap. unfold eventHandler.
  destruct key as [k|]; [| done].
  destruct (matchesLetter k) as [c|] eqn:Hk.
  - unfold pressKey.
    destruct (wordLength cfg <=? length (activeTiles s)); [done |].
    destruct (findIdx letterIsNil (tiles s)); [| done].
    unfold lettersCapital. simpl. apply forallb_alter; [done |].
    intros x _. simpl. by eapply matchesLetter_capital.
  - destruct (word_eqb k key_Enter).
    + destruct (submitGuess_letters r s) as [Hl | Hb].
      * by eapply lettersCapital_letters.
      * by eapply lettersCapital_blank.
    + destruct (word_eqb k key_Delete || word_eqb k key_Backspace); [| done].
      unfold deleteKey.
      destruct (findLastIdx isActive (tiles s)); [| done].
      unfold lettersCapital. simpl. by apply forallb_alter.
Qed.

(** X12.  A small letter а..я and its capital have the same effect, and a
    key that is neither a letter а..я, А..Я nor Enter, Delete or Backspace
    has none. *)
Theorem eventHandler_letter_case (c : letter) (k : word) (r : nat) (s : State) :
  ((0x430 ≤ c ≤ 0x44F)%N →
   eventHandler cfg dictionary (Some [c]) r s
   = eventHandler cfg dictionary (Some [(c - 0x20)%N]) r s) ∧
  (matchesLetter k = None → k ≠ key_Enter → k ≠ key_Delete →
   k ≠ key_Backspace →
   eventHandler cfg dictionary (Some k) r s = s).
Proof.
  split.
  - intros [Hlo Hhi]. unfold eventHandler, matchesLetter.
    apply N.leb_le in Hlo as Hlo', Hhi as Hhi'. rewrite Hlo', Hhi'. simpl.
    assert ((0x430 <=? c - 0x20)%N = false) as -> by (apply N.leb_gt; lia).
    assert ((0x410 <=? c - 0x20)%N = true) as -> by (apply N.leb_le; lia).
    assert ((c - 0x20 <=? 0x42F)%N = true) as -> by (apply N.leb_le; lia).
    simpl. unfold pressKey, toLocaleUpperCase. rewrite Hlo', Hhi'. simpl.
    assert ((0x430 <=? c - 0x20)%N = false) as -> by (apply N.leb_gt; lia).
    done.
  - intros Hm H1 H2 H3. unfold eventHandler. rewrite Hm.
    apply word_eqb_neq in H1, H2, H3. by rewrite H1, H2, H3.
Qed.

End Controller.

(** ** Utilities *)

Section CreateArray.
Context {T : Type}.

Lemma createArray_loop (element : Filler T) (k m : nat) :
  foldl (λ array index, <[index := Some (fillerAt element index)]> array)
        (((λ i, Some (fillerAt element i)) <$> seq 0 k) ++ replicate m None)
        (seq k m)
  = (λ i, Some (fillerAt element i)) <$> seq 0 (k + m).
Proof.
  revert k. induction m as [|m IH]; intros k.
  - simpl. by rewrite app_nil_r, Nat.add_0_r.
  - simpl. rewrite insert_app_r_alt by (rewrite length_fmap, length_seq; lia).
    rewrite length_fmap, length_seq, Nat.sub_diag. simpl.
    replace (k + S m) with (S k + m) by lia. rewrite <- IH.
    f_equal. rewrite seq_S, fmap_app, <- app_assoc. done.
Qed.

(** X13.  [createArray(size, element)] returns an array of [size] elements
    without holes whose element at [i] is [i] when no element is given,
    [element(i)] for a function and [element] otherwise. *)
Theorem createArray_elements (size : nat) (element : Filler T) :
  createArray size element
  = (λ i, Some (fillerAt element i)) <$> seq 0 size ∧
  length (createArray size element) = size ∧
  ∀ i, i < size → createArray size element !! i = Some (Some (fillerAt element i)).
Proof.
  assert (createArray size element
          = (λ i, Some (fillerAt element i)) <$> seq 0 size) as Heq
    by apply (createArray_loop element 0 size).
  split; [done |]. rewrite Heq. split.
  - by rewrite length_fmap, length_seq.
  - intros i Hi. by rewrite list_lookup_fmap, lookup_seq_lt.
Qed.

End CreateArray.

Section Shuffle.
Context {T : Type}.

Lemma swap_length (i j : nat) (array : list T) :
  length (swap i j array) = length array.
Proof.
  unfold swap. destruct (array !! j); [| done].
  destruct (array !! i); [| done]. by rewrite !length_insert.
Qed.

Lemma swap_lt_Permutation (i j : nat) (array : list T) (ai aj : T) :
  j < i → array !! i = Some ai → array !! j = Some aj →
  <[j := ai]> (<[i := aj]> array) ≡ₚ array ∧
  <[i := aj]> (<[j := ai]> array) ≡ₚ array.
Proof.
  intros Hji Hi Hj.
  pose proof (lookup_lt_Some _ _ _ Hi) as Hlen.
  rewrite <- (take_drop_middle array j aj Hj) in Hi |- *.
  set (A := take j array) in *. set (R := drop (S j) array) in *.
  assert (length A = j) as HA by (unfold A; rewrite length_take; lia).
  rewrite lookup_app_r in Hi by lia.
  replace (i - length A) with (S (i - S j)) in Hi by lia. simpl in Hi.
  rewrite <- (take_drop_middle R (i - S j) ai Hi).
  set (B := take (i - S j) R). set (C := drop (S (i - S j)) R).
  assert (length B = i - S j) as HB.
  { unfold B. rewrite length_take. apply lookup_lt_Some in Hi. lia. }
  assert (Hins_i : ∀ x y, <[i := y]> (A ++ x :: B ++ ai :: C)
                          = A ++ x :: B ++ y :: C).
  { intros x y. rewrite insert_app_r_alt by lia.
    replace (i - length A) with (S (length B + 0)) by lia. simpl.
    by rewrite insert_app_r. }
  assert (Hins_j : ∀ x y l, <[j := y]> (A ++ x :: l) = A ++ y :: l).
  { intros x y l. rewrite insert_app_r_alt by lia.
    by rewrite HA, Nat.sub_diag. }
  split.
  - rewrite Hins_i, Hins_j. by solve_Permutation.
  - rewrite Hins_j, Hins_i. by solve_Permutation.
Qed.

Lemma swap_Permutation (i j : nat) (array : list T) : swap i j array ≡ₚ array.
Proof.
  unfold swap.
  destruct (array !! j) as [aj|] eqn:Hj; [| done].
  destruct (array !! i) as [ai|] eqn:Hi; [| done].
  destruct (Nat.lt_trichotomy j i) as [Hlt | [-> | Hgt]].
  - by apply (swap_lt_Permutation i j array ai aj).
  - assert (ai = aj) as -> by congruence.
    rewrite list_insert_insert_eq, list_insert_id; done.
  - by apply (swap_lt_Permutation j i array aj ai).
Qed.

Lemma shuffleFrom_Permutation (draw : nat → nat) (i : nat) (array : list T) :
  shuffleFrom draw i array ≡ₚ array.
Proof.
  revert array. induction i as [|i IH]; intros array; simpl; [done |].
  rewrite IH. apply swap_Permutation.
Qed.

(** X14.  [shuffle] returns a rearrangement of the array: the same
    elements with the same multiplicities, and so the same length,
    whatever indices are drawn. *)
Theorem shuffle_is_permutation (draw : nat → nat) (array : list T) :
  shuffle draw array ≡ₚ array ∧ length (shuffle draw array) = length array.
Proof.
  assert (shuffle draw array ≡ₚ array) as H
    by apply shuffleFrom_Permutation.
  split; [done | by rewrite H].
Qed.

End Shuffle.

(** X15.  [seedRandom] returns a number in [0, 1) for every seed that is
    not negative, given or drawn, within the range of exact arithmetic;
    a seed given once is answered from the cache afterwards, with the same
    result and without changing the cache. *)
Theorem seedRandom_unit_interval_and_cache (seed : option Z) (entropy : Z)
    (cache : Cache) :
  (0 ≤ default entropy seed)%Z →
  (lcg_a * default entropy seed + lcg_c < maxExact)%Z →
  (∀ sd, seed = Some sd → cache !! sd = None) →
  (0 ≤ (seedRandom seed entropy cache).1 < lcg_m)%Z ∧
  (∀ sd entropy', seed = Some sd →
     seedRandom (Some sd) entropy' (seedRandom seed entropy cache).2
     = seedRandom seed entropy cache).
Proof.
  intros Hpos _ Hmiss.
  assert (Hrem : ∀ x, (0 ≤ x)%Z → (0 ≤ Z.rem (lcg_a * x + lcg_c) lcg_m < lcg_m)%Z).
  { intros x Hx. apply Z.rem_bound_pos; unfold lcg_a, lcg_c, lcg_m; lia. }
  destruct seed as [sd|]; simpl in *.
  - rewrite (Hmiss sd eq_refl). simpl. split; [by apply Hrem |].
    intros sd' entropy' [= <-]. by rewrite lookup_insert_eq.
  - split; [by apply Hrem | done].
Qed.

Lemma hasKey_existsb (s : State) (c : letter) :
  hasKey s c = existsb (λ k, word_eqb k [c]) (dataset_key <$> keys s).
Proof.
  unfold hasKey.
  induction (keys s) as [|k ks IH]; [done |]. csimpl.
  unfold keyIs at 1. destruct (word_eqb (dataset_key k) [c]); [done |].
  simpl. rewrite <- IH. by destruct (findIdx (keyIs c) ks).
Qed.

Lemma newGame_key_names (cfg : Config) (dictionary : list word)
    (stored : option string) (best : Z) (r : nat) :
  dataset_key <$> keys (newGame cfg dictionary stored best r) = config_keys.
Proof.
  unfold newGame.
  match goal with |- context [initialize dictionary r ?x] =>
    destruct (initialize_spec dictionary r x)
      as (_ & _ & _ & _ & _ & _ & _ & ->) end.
  reflexivity.
Qed.

Lemma capital_cases (c : letter) :
  isCapital c = true → c ∈ (N.of_nat <$> seq 0x410 32).
Proof.
  unfold isCapital. intros [Hlo Hhi]%andb_true_iff.
  apply N.leb_le in Hlo, Hhi.
  apply list_elem_of_fmap. exists (N.to_nat c). split; [by rewrite N2Nat.id |].
  apply elem_of_seq. lia.
Qed.

(** X16.  The keyboard built from [config.keys] has a key for a letter
    exactly when it is a capital А..Я other than Ы and Э, two letters the
    controller forwards but no key stands for. *)
Theorem keyboard_letters (cfg : Config) (dictionary : list word)
    (stored : option string) (best : Z) (r : nat) (c : letter) :
  hasKey (newGame cfg dictionary stored best r) c
  = isCapital c && negb ((c =? 0x42B) || (c =? 0x42D))%N.
Proof.
  rewrite hasKey_existsb, newGame_key_names.
  destruct (isCapital c) eqn:Hcap.
  - apply capital_cases in Hcap. simpl in Hcap.
    repeat (apply elem_of_cons in Hcap as [-> | Hcap]; [reflexivity |]).
    by apply elem_of_nil in Hcap.
  - simpl. unfold isCapital in Hcap.
    apply andb_false_iff in Hcap.
    assert (∀ x : N, (0x410 ≤ x ≤ 0x42F)%N → word_eqb [x] [c] = false) as Hne.
    { intros x Hx. apply word_eqb_neq. intros [= ->].
      destruct Hcap as [H | H]; apply N.leb_gt in H; lia. }
    assert (word_eqb key_Enter [c] = false) as HE
      by (by apply word_eqb_neq).
    assert (word_eqb key_Delete [c] = false) as HD
      by (by apply word_eqb_neq).
    unfold config_keys. simpl.
    rewrite !Hne by (vm_compute; split; discriminate).
    rewrite HE, HD. reflexivity.
Qed.

(** X17.  A new game starts clean: [girdLength] blank tiles, the keys of
    [config.keys] with the class 'key' alone, score 0, the target at the
    drawn index.  The best score is the number read from the store, or 0
    if that is negative, in which case 0 is written to the store. *)
Theorem newGame_starts_clean (cfg : Config) (dictionary : list word)
    (stored : option string) (best : Z) (r : nat) :
  let s := newGame cfg dictionary stored best r in
  tiles s = replicate (girdLength cfg) blankTile ∧
  Forall (λ k, classList k = ["key"]) (keys s) ∧
  dataset_key <$> keys s = config_keys ∧
  score s = 0%Z ∧ highscore s = Z.max best 0 ∧
  localStorage s = (if (best <? 0)%Z then Some "0" else stored) ∧
  targetWord s = sampleFromArray dictionary r ∧
  gridOk cfg s.
Proof.
  intros s.
  assert (tiles s = replicate (girdLength cfg) blankTile) as Ht.
  { unfold s, newGame.
    match goal with |- context [initialize dictionary r ?x] =>
      destruct (initialize_spec dictionary r x)
        as (_ & _ & _ & _ & _ & _ & -> & _) end.
    simpl. by rewrite resetTile_all, length_replicate. }
  split; [done |]. split.
  { unfold s, newGame.
    match goal with |- context [initialize dictionary r ?x] =>
      destruct (initialize_spec dictionary r x)
        as (_ & _ & _ & _ & _ & _ & _ & ->) end.
    apply Forall_fmap, Forall_true. done. }
  split; [apply newGame_key_names |].
  split; [apply newGame_invariants |]. split; [| split; [| split]].
  - unfold s, newGame, initialize, updateScore. simpl.
    destruct (Z.ltb_spec best 0); simpl; lia.
  - unfold s, newGame, initialize, updateScore. simpl.
    by destruct (Z.ltb_spec best 0).
  - unfold s, newGame, initialize, updateScore. simpl.
    by destruct (Z.ltb_spec best 0).
  - by apply (gridOk_blank cfg s (girdLength cfg)).
Qed.

(** ** Invariants of a session *)

Lemma updateScore_shows (x : State) :
  scoreboardOk x → scoreboardShows (updateScore x) ∧ scoreboardOk (updateScore x).
Proof.
  intros Hx. split; [| by apply updateScore_scoreboardOk].
  destruct Hx as [[a Ha] [b Hb]].
  unfold scoreboardShows, updateScore. rewrite Ha, Hb.
  by destruct (highscore x <? score x)%Z.
Qed.

Lemma elem_of_classList_add (x token : string) (cl : list string) :
  x ∈ classList_add token cl ↔ x = token ∨ x ∈ cl.
Proof.
  unfold classList_add. destruct (existsb (String.eqb token) cl) eqn:He.
  - split; [by right |]. intros [-> | ?]; [| done].
    apply existsb_exists in He as (y & Hin & ->%String.eqb_eq).
    by apply list_elem_of_In.
  - rewrite elem_of_app, list_elem_of_singleton. tauto.
Qed.

Lemma keyIs_name (c : letter) (k : Key) : keyIs c k = true → dataset_key k = [c].
Proof. unfold keyIs. apply word_eqb_eq. Qed.

Lemma flipTile_keysAgree (tile index : nat) (s : State) :
  keysAgree s → keysAgree (flipTile tile index s).
Proof.
  intros Hagree.
  destruct (flipTile_cases tile index s)
    as [-> | (t & c & key & Ht & Hc & Hk & ->)]; [done |].
  destruct (findIdx_Some _ _ _ Hk) as (k0 & Hk0 & Hname%keyIs_name & _).
  intros i k Hi. simpl in Hi |- *.
  destruct (decide (key = i)) as [-> | Hne].
  - rewrite list_lookup_alter_eq, Hk0 in Hi. simpl in Hi. injection Hi as <-.
    simpl. destruct (Hagree i k0 Hk0) as [Hin Hout].
    rewrite !elem_of_classList_add. unfold spotOf.
    case_bool_decide as H1; [| case_bool_decide as H2].
    + assert (c ∈ targetWord s) by (by eapply list_elem_of_lookup_2).
      split; [by exists c |]. intros [? | ?]; [done | by apply Hout].
    + split; [by exists c |]. intros [? | ?]; [done | by apply Hout].
    + split; [| by exists c].
      intros [[? | ?] | [? | ?]]; try done; apply Hin; tauto.
  - rewrite list_lookup_alter_ne in Hi by done. by apply (Hagree i k).
Qed.

Section Session.

Variable cfg : Config.
Variable dictionary : list word.

Lemma initialize_clean (r : nat) (x : State) :
  scoreboardOk x →
  scoreboardShows (initialize dictionary r x) ∧
  scoreboardOk (initialize dictionary r x) ∧
  keysAgree (initialize dictionary r x) ∧
  targetWord (initialize dictionary r x) = sampleFromArray dictionary r.
Proof.
  intros Hx.
  destruct (initialize_spec dictionary r x)
    as (Hs & _ & Hh & _ & Hb & Htg & _ & Hk).
  destruct (updateScore_shows x Hx) as [Hshow Hok].
  destruct (updateScore_frame x) as (_ & _ & _ & Hsc & _).
  split; [| split; [| split; [| done]]].
  - unfold scoreboardShows in *. by rewrite Hb, Hs, Hh, Hshow, Hsc.
  - unfold scoreboardOk. by rewrite Hb.
  - intros i k Hi. rewrite Hk, list_lookup_fmap in Hi.
    destruct (keys x !! i); [| done]. simpl in Hi. injection Hi as <-.
    simpl. split.
    + intros [H | H]; apply list_elem_of_singleton in H; discriminate.
    + intros H. apply list_elem_of_singleton in H. discriminate.
Qed.

(** An operation that ends the round ends in [#initialize]. *)
Lemma round_end_initialize (r : nat) (s : State) :
  roundEnds cfg dictionary s = true →
  ∃ x, submitGuess cfg dictionary r s = initialize dictionary r x ∧
       scoreboard x = scoreboard s.
Proof.
  intros (Hacc & Hw & Hend)%roundEnds_spec.
  rewrite (submitGuess_accepted cfg dictionary r s Hacc).
  destruct (activeTiles_nonempty cfg dictionary s Hacc Hw) as (tile & row & Hrow).
  rewrite Hrow, <- Hrow.
  destruct (flipTiles_frame cfg s) as ((Htw & _ & _ & Hsb & _) & _ & Hl & _).
  unfold checkWinLose. cbv zeta. rewrite playAnimation_noCallback, Htw.
  change (forallb letterIsString (tiles (flipTiles cfg s)))
    with (isGridFull (flipTiles cfg s)).
  rewrite (isGridFull_letters _ _ Hl).
  destruct Hend as [Heq | [Hne Hfull]].
  - apply word_eqb_eq in Heq. rewrite Heq. eexists. split; [done |]. done.
  - apply word_eqb_neq in Hne. rewrite Hne, Hfull.
    eexists. split; [done |].
    by destruct (0 <? score (flipTiles cfg s))%Z.
Qed.

Lemma flipTiles_keysAgree (s : State) : keysAgree s → keysAgree (flipTiles cfg s).
Proof.
  intros H. unfold flipTiles, playAnimation.
  apply (foldl_invariant keysAgree); [done |].
  intros x [index tile] Hx. by apply flipTile_keysAgree.
Qed.

Lemma step_session (s : State) (op : Op) :
  scoreboardOk s → scoreboardShows s → keysAgree s →
  scoreboardShows (step cfg dictionary s op) ∧
  keysAgree (step cfg dictionary s op).
Proof.
  intros Hok Hshow Hagree.
  destruct (opEndsRound cfg dictionary s op) eqn:Hend.
  - destruct op as [key | | r]; simpl in *; try done.
    destruct (round_end_initialize r s Hend) as (x & -> & Hb).
    assert (scoreboardOk x) as Hx by (unfold scoreboardOk; by rewrite Hb).
    destruct (initialize_clean r x Hx) as (? & _ & ? & _). done.
  - destruct (step_same_round cfg dictionary s op Hend)
      as [(Htw & Hs & Hh & Hb & _) _].
    split; [unfold scoreboardShows in *; by rewrite Hb, Hs, Hh |].
    destruct op as [key | | r]; simpl in *.
    + unfold pressKey. destruct (wordLength cfg <=? _); [done |].
      by destruct (findIdx letterIsNil (tiles s)).
    + unfold deleteKey. by destruct (findLastIdx isActive (tiles s)).
    + destruct (accepted cfg dictionary s) eqn:Hacc.
      * rewrite (submitGuess_continues cfg dictionary r s Hacc Hend).
        by apply flipTiles_keysAgree.
      * by rewrite (submitGuess_rejected cfg dictionary r s Hacc).
Qed.

Lemma run_session (ops : list Op) (s : State) :
  scoreboardOk s → scoreboardShows s → keysAgree s →
  scoreboardShows (run cfg dictionary ops s) ∧
  keysAgree (run cfg dictionary ops s).
Proof.
  intros Hok Hshow Hagree.
  cut (scoreboardOk (run cfg dictionary ops s) ∧
       scoreboardShows (run cfg dictionary ops s) ∧
       keysAgree (run cfg dictionary ops s)); [tauto |].
  apply (foldl_invariant
           (λ x, scoreboardOk x ∧ scoreboardShows x ∧ keysAgree x)); [done |].
  intros x op (Hx & Hsx & Hax).
  split; [by apply step_scoreboardOk | by apply step_session].
Qed.

Lemma newGame_session (stored : option string) (best : Z) (r : nat) :
  scoreboardOk (newGame cfg dictionary stored best r) ∧
  scoreboardShows (newGame cfg dictionary stored best r) ∧
  keysAgree (newGame cfg dictionary stored best r).
Proof.
  unfold newGame.
  match goal with |- context [initialize dictionary r ?x] =>
    assert (scoreboardOk x) as Hx by (split; simpl; eauto);
    destruct (initialize_clean r x Hx) as (? & ? & ? & _) end.
  done.
Qed.

(** X19.  In every state of a session the classes of the keys agree with
    the target of the round: a key marked correct or misplaced stands for
    a letter of the target, a key marked missing for a letter outside it,
    so no key is marked missing together with correct or misplaced. *)
Theorem keys_agree_with_target (stored : option string) (best : Z)
    (r : nat) (ops : list Op) :
  let s := run cfg dictionary ops (newGame cfg dictionary stored best r) in
  keysAgree s ∧
  Forall (λ k, ¬ ("missing-spot" ∈ classList k ∧
                  ("correct-spot" ∈ classList k ∨ "wrong-spot" ∈ classList k)))
         (keys s).
Proof.
  intros s.
  destruct (newGame_session stored best r) as (Hok & Hshow & Hagree).
  destruct (run_session ops _ Hok Hshow Hagree) as [_ Hs]. fold s in Hs.
  split; [done |].
  apply Forall_lookup. intros i k Hi [Hmiss Hhit].
  destruct (Hs i k Hi) as [Hin Hout].
  destruct (Hin Hhit) as (c & Hc & Hcin).
  destruct (Hout Hmiss) as (c' & Hc' & Hcout).
  assert (c = c') as -> by congruence. done.
Qed.

End Session.

Section SessionMore.

Variable cfg : Config.
Variable dictionary : list word.

Lemma sampleFromArray_elem (r : nat) :
  r < length dictionary → sampleFromArray dictionary r ∈ dictionary.
Proof.
  intros Hr. unfold sampleFromArray.
  destruct (lookup_lt_is_Some_2 dictionary r Hr) as [w Hw].
  rewrite Hw. simpl. by eapply list_elem_of_lookup_2.
Qed.

Lemma step_target (s : State) (op : Op) :
  drawInRange dictionary op = true → targetWord s ∈ dictionary →
  targetWord (step cfg dictionary s op) ∈ dictionary.
Proof.
  intros Hr Hin.
  destruct (opEndsRound cfg dictionary s op) eqn:Hend.
  - destruct op as [key | | r]; simpl in *; try done.
    destruct (round_end_initialize cfg dictionary r s Hend) as (x & -> & _).
    destruct (initialize_spec dictionary r x) as (_ & _ & _ & _ & _ & -> & _).
    apply sampleFromArray_elem. by apply Nat.ltb_lt.
  - destruct (step_same_round cfg dictionary s op Hend) as [(-> & _) _]. done.
Qed.

Lemma run_target (ops : list Op) (s : State) :
  forallb (drawInRange dictionary) ops = true → targetWord s ∈ dictionary →
  targetWord (run cfg dictionary ops s) ∈ dictionary.
Proof.
  revert s. induction ops as [|op ops IH]; intros s Hops Hin; [done |].
  simpl in Hops. apply andb_true_iff in Hops as [Hop Hops].
  simpl. apply (IH _ Hops). by apply step_target.
Qed.

(** X20.  When every index drawn lies in the dictionary, the target is a
    word of the dictionary in every state of a session; it has
    [wordLength] letters when every word of the dictionary has. *)
Theorem target_in_dictionary (stored : option string) (best : Z)
    (r : nat) (ops : list Op) :
  r < length dictionary → forallb (drawInRange dictionary) ops = true →
  let s := run cfg dictionary ops (newGame cfg dictionary stored best r) in
  targetWord s ∈ dictionary ∧
  (Forall (λ w, length w = wordLength cfg) dictionary →
   length (targetWord s) = wordLength cfg).
Proof.
  intros Hr Hops s.
  assert (targetWord s ∈ dictionary) as Hin.
  { apply run_target; [done |]. unfold newGame.
    match goal with |- context [initialize dictionary r ?x] =>
      destruct (initialize_spec dictionary r x)
        as (_ & _ & _ & _ & _ & -> & _) end.
    by apply sampleFromArray_elem. }
  split; [done |].
  intros Hall. rewrite Forall_forall in Hall. by apply Hall.
Qed.

Lemma step_storeInSync (s : State) (op : Op) :
  scoreboardOk s → storeInSync s → storeInSync (step cfg dictionary s op).
Proof.
  intros Hok Hsync. unfold storeInSync in *.
  destruct (opEndsRound cfg dictionary s op) eqn:Hend.
  - destruct (step_round_end cfg dictionary s op Hend) as [Hh Hst].
    destruct (updateScore_best
                (set_score (score (step cfg dictionary s op)) s) Hok)
      as [Hup Hkeep].
    simpl in Hup, Hkeep. rewrite Hh, Hst.
    destruct (Z.lt_ge_cases (highscore s) (score (step cfg dictionary s op)))
      as [Hlt | Hge].
    + destruct (Hup Hlt) as [-> ->]. done.
    + destruct (Hkeep Hge) as [-> ->]. done.
  - destruct (step_same_round cfg dictionary s op Hend)
      as [(_ & _ & -> & _ & ->) _]. done.
Qed.

(** X21.  Once the store holds the best score it keeps holding it: after
    every operation the item in the store is the decimal text of the best
    score in memory. *)
Theorem store_stays_in_sync (ops : list Op) (s : State) :
  scoreboardOk s → storeInSync s →
  storeInSync (run cfg dictionary ops s).
Proof.
  intros Hok Hsync.
  cut (scoreboardOk (run cfg dictionary ops s) ∧
       storeInSync (run cfg dictionary ops s)); [tauto |].
  apply (foldl_invariant (λ x, scoreboardOk x ∧ storeInSync x)); [done |].
  intros x op [Hx Hsx].
  split; [by apply step_scoreboardOk | by apply step_storeInSync].
Qed.

(** X22.  The flips of an accepted row give the key of each letter of the
    guess the class of that letter's tile. *)
Theorem key_receives_tile_class (s : State) (i : nat) (c : letter) (key : nat) :
  tilesOk s → guessedWord s !! i = Some c →
  findIdx (keyIs c) (keys s) = Some key →
  ∃ k, keys (flipTiles cfg s) !! key = Some k ∧
       dataset_key k = [c] ∧
       spotOf (targetWord s) i c ∈ classList k.
Proof.
  intros Hok Hg Hkey.
  pose proof (guessedWord_row s Hok) as Hrow.
  destruct (Forall2_lookup_r _ _ _ _ _ Hrow Hg) as (tile & Hi & t & Htile & Hc).
  unfold flipTiles, playAnimation.
  set (s0 := emit _ s).
  assert (imap pair (activeTiles s) !! i = Some (i, tile)) as Hp
    by (by rewrite list_lookup_imap, Hi).
  assert (NoDup (imap pair (activeTiles s)).*2) as Hnd
    by (rewrite imap_pair_snd; apply activeTiles_NoDup).
  apply list_elem_of_split_length in Hp as (ps1 & ps2 & Hps & _).
  rewrite Hps in Hnd |- *. rewrite foldl_app. simpl.
  set (s1 := foldl _ s0 ps1).
  destruct (flips_frame ps1 s0) as ((Htw & _) & _ & _ & Hgrow1).
  fold s1 in Htw, Hgrow1.
  assert (tiles s1 !! tile = Some t) as Htile1.
  { unfold s1. rewrite flips_other; [done |].
    rewrite fmap_app in Hnd. apply NoDup_app in Hnd as (_ & Hdisj & _).
    intros Hin. apply (Hdisj tile Hin). simpl. by left. }
  assert (findIdx (keyIs c) (keys s1) = Some key) as Hkey1
    by (by rewrite (findKey_grows c s0 s1 Hgrow1)).
  destruct (findIdx_Some _ _ _ Hkey1) as (k1 & Hk1 & Hname%keyIs_name & _).
  set (s2 := flipTile tile i s1).
  assert (∃ k2, keys s2 !! key = Some k2 ∧ dataset_key k2 = [c] ∧
                spotOf (targetWord s) i c ∈ classList k2)
    as (k2 & Hk2 & Hname2 & Hcls).
  { exists (key_add (spotOf (targetWord s) i c) k1). unfold s2, flipTile.
    rewrite Htile1, Hc, Hkey1. simpl.
    rewrite list_lookup_alter_eq, Hk1. simpl. rewrite Htw. simpl.
    split; [done | split; [done | apply classList_add_elem]]. }
  destruct (flips_frame ps2 s2) as (_ & _ & _ & Hgrow2).
  destruct (keysGrow_lookup _ _ _ _ Hgrow2 Hk2) as (k & Hk & Hn & Hsub).
  exists k. split; [done | split; [congruence | by apply Hsub]].
Qed.

End SessionMore.

Lemma target_in_dictionary_witness :
  targetWord (run config sampleDictionary (guessWord borka 2) game0)
  ∈ sampleDictionary.
Proof.
  apply (target_in_dictionary config sampleDictionary None 0 0
           (guessWord borka 2)).
  - vm_compute; lia.
  - vm_compute; reflexivity.
Defined.

Lemma store_stays_in_sync_witness :
  storeInSync (run config sampleDictionary (guessWord korab 0) wonOnce).
Proof.
  apply (store_stays_in_sync config sampleDictionary (guessWord korab 0) wonOnce).
  - split; vm_compute; eauto.
  - vm_compute; reflexivity.
Defined.

Lemma key_receives_tile_class_witness :
  ∃ k, keys (flipTiles config typedBorko) !! 8 = Some k ∧
       dataset_key k = [L_O] ∧
       spotOf (targetWord typedBorko) 4 L_O ∈ classList k.
Proof.
  apply (key_receives_tile_class config typedBorko 4 L_O 8).
  - vm_compute; reflexivity.
  - vm_compute; reflexivity.
  - vm_compute; reflexivity.
Defined.

(** ** [sampleFromArray] with a size *)

Lemma insertionOrder_filter (P : nat → Prop) `{!∀ x, Decision (P x)}
    (draws : list nat) :
  filter P (insertionOrder draws) = insertionOrder (filter P draws).
Proof.
  induction draws as [|d draws IH]; [done |]. simpl.
  destruct (decide (P d)) as [Hd | Hd].
  - rewrite !filter_cons_True by done. simpl. f_equal.
    rewrite <- IH, !list_filter_filter. apply list_filter_iff. tauto.
  - rewrite !filter_cons_False by done.
    rewrite <- IH, list_filter_filter. apply list_filter_iff.
    intros x. split; [tauto |]. intros Hx. split; [done |]. by intros ->.
Qed.

Lemma insertionOrder_NoDup (draws : list nat) : NoDup (insertionOrder draws).
Proof.
  induction draws as [|d draws IH]; simpl; [constructor |].
  apply NoDup_cons. split.
  - rewrite list_elem_of_filter. tauto.
  - by apply NoDup_filter.
Qed.

Lemma insertionOrder_elem (draws : list nat) (x : nat) :
  x ∈ insertionOrder draws ↔ x ∈ draws.
Proof.
  induction draws as [|d draws IH]; simpl; [done |].
  rewrite !elem_of_cons, list_elem_of_filter, IH.
  destruct (decide (x = d)); tauto.
Qed.

Lemma take_filter_fresh (d : nat) (l : list nat) (m : nat) :
  d ∉ take m l → take m (filter (λ x, x ≠ d) l) = take m l.
Proof.
  revert m. induction l as [|x l IH]; intros [|m]; simpl; try done.
  intros Hd. rewrite not_elem_of_cons in Hd. destruct Hd as [Hx Hd].
  rewrite filter_cons_True by done. simpl. by rewrite IH.
Qed.

Lemma insertionOrder_take (draws : list nat) (m : nat) :
  NoDup (take m draws) → take m (insertionOrder draws) = take m draws.
Proof.
  revert m. induction draws as [|d draws IH]; intros [|m]; simpl; try done.
  intros [Hd Hnd]%NoDup_cons. f_equal.
  rewrite take_filter_fresh; [by apply IH |].
  by rewrite IH.
Qed.

Lemma filter_fresh_nil (draws : list nat) :
  filter (λ x, x ∉ []) draws = draws.
Proof.
  induction draws as [|d draws IH]; [done |].
  rewrite filter_cons_True by apply not_elem_of_nil. by rewrite IH.
Qed.

(** The loop adds to the set the draws that are not yet in it, until the
    set has [maxSize] values. *)
Lemma sampleLoop_insertionOrder (maxSize : nat) (draws sampled : list nat) :
  length sampled ≤ maxSize →
  sampleLoop maxSize draws sampled
  = let set := sampled ++ insertionOrder (filter (λ x, x ∉ sampled) draws) in
    if maxSize <=? length set then Some (take maxSize set) else None.
Proof.
  revert sampled. induction draws as [|d draws IH]; intros sampled Hlen;
    cbn zeta.
  - simpl. rewrite app_nil_r.
    destruct (maxSize <=? length sampled); [| done].
    by rewrite take_ge.
  - simpl sampleLoop.
    destruct (Nat.leb_spec maxSize (length sampled)) as [Hle | Hlt].
    + rewrite take_app_le by done. rewrite take_ge by done.
      destruct (Nat.leb_spec maxSize
                  (length (sampled
                           ++ insertionOrder (filter (λ x, x ∉ sampled)
                                                     (d :: draws)))));
        [done |].
      rewrite length_app in *. lia.
    + case_bool_decide as Hin.
      * rewrite filter_cons_False by tauto. by apply IH.
      * rewrite filter_cons_True by done. simpl insertionOrder.
        rewrite IH by (rewrite length_app; simpl; lia). cbn zeta.
        rewrite insertionOrder_filter, list_filter_filter.
        rewrite <- app_assoc. simpl.
        rewrite (list_filter_iff (λ x, x ∉ sampled ++ [d])
                                 (λ x, x ≠ d ∧ x ∉ sampled)); [done |].
        intros x. rewrite elem_of_app, list_elem_of_singleton. tauto.
Qed.

Section Sample.
Context {T : Type}.

(** X23.  [sampleFromArray] with no size, or with size 0, returns a
    single element, the one at the drawn index.  With a size above 0 the
    loop ends as soon as [min size length] different indices have been
    drawn, and not before: the result is the elements at the first
    [min size length] different indices, in the order in which they were
    first drawn, whatever was drawn again in between.  These indices are
    distinct and were all drawn; when the first draws are already distinct
    they are the indices used. *)
Theorem sampleFromArray_sized (array : list T) (size : nat)
    (draws : list nat) :
  sampleFromArraySized array None draws
  = Some (SampledOne (head draws ≫= λ r, array !! r)) ∧
  sampleFromArraySized array (Some 0) draws
  = sampleFromArraySized array None draws ∧
  (0 < size →
   let maxSize := size `min` length array in
   let indexes := take maxSize (insertionOrder draws) in
   (maxSize ≤ length (insertionOrder draws) →
    sampleFromArraySized array (Some size) draws
    = Some (SampledMany ((λ index, array !! index) <$> indexes))) ∧
   (length (insertionOrder draws) < maxSize →
    sampleFromArraySized array (Some size) draws = None) ∧
   NoDup indexes ∧ indexes ⊆ draws ∧
   (NoDup (take maxSize draws) → indexes = take maxSize draws)).
Proof.
  split; [reflexivity |]. split; [reflexivity |].
  intros Hsize maxSize indexes. subst indexes.
  assert (sampleFromArraySized array (Some size) draws
          = (λ indexes, SampledMany ((λ index, array !! index) <$> indexes))
            <$> (if maxSize <=? length (insertionOrder draws)
                 then Some (take maxSize (insertionOrder draws)) else None))
    as Hloop.
  { destruct size as [|n]; [lia |]. unfold sampleFromArraySized.
    fold maxSize. rewrite sampleLoop_insertionOrder by (simpl; lia).
    cbn zeta. simpl app. by rewrite filter_fresh_nil. }
  split; [| split; [| split; [| split]]].
  - intros Hle. rewrite Hloop. apply Nat.leb_le in Hle. by rewrite Hle.
  - intros Hlt. rewrite Hloop. apply Nat.leb_gt in Hlt. by rewrite Hlt.
  - pose proof (insertionOrder_NoDup draws) as Hnd.
    rewrite <- (take_drop maxSize (insertionOrder draws)) in Hnd.
    by apply NoDup_app in Hnd as [? _].
  - intros x Hx%subseteq_take. by apply insertionOrder_elem.
  - apply insertionOrder_take.
Qed.

End Sample.

Lemma sampleFromArray_sized_witness :
  sampleFromArraySized [L_A; L_B; L_V] (Some 2) [1; 1; 0; 2]
  = Some (SampledMany [Some L_B; Some L_A]) ∧
  sampleFromArraySized [L_A; L_B; L_V] (Some 2) [1; 1; 1] = None.
Proof.
  destruct (sampleFromArray_sized [L_A; L_B; L_V] 2 [1; 1; 0; 2])
    as (_ & _ & Hmany).
  destruct (sampleFromArray_sized [L_A; L_B; L_V] 2 [1; 1; 1])
    as (_ & _ & Hfew).
  destruct Hmany as (Hsome & _); [lia |].
  destruct Hfew as (_ & Hnone & _); [lia |].
  split.
  - apply Hsome. vm_compute; lia.
  - apply Hnone. vm_compute; lia.
Defined.

(** ** The callbacks of a session *)

Lemma scoreboardShows_bestShown (s : State) : scoreboardShows s → bestShown s.
Proof. unfold scoreboardShows, bestShown. by intros ->. Qed.

Lemma scoresKept_same (s s' : State) (d : nat) :
  sameScores s s' → scoresKept (mkSession s d) → scoresKept (mkSession s' d).
Proof.
  intros (_ & Hs & Hh & Hb & _) (Hok & Hbest & Hset).
  unfold scoresKept, settled, scoreboardOk, bestShown, scoreboardShows in *.
  simpl in *. rewrite Hs, Hh, Hb. done.
Qed.

Section Callbacks.

Variable cfg : Config.
Variable dictionary : list word.

Lemma submitGuessStart_frame (s : State) :
  sameScores s (submitGuessStart cfg dictionary s) ∧
  tiles (submitGuessStart cfg dictionary s) = tiles s ∧
  keys (submitGuessStart cfg dictionary s) = keys s.
Proof.
  unfold submitGuessStart. cbv zeta. rewrite !playAnimation_noCallback.
  by destruct (negb (length (activeTiles s) =? wordLength cfg)),
    (negb (existsb (word_eqb (guessedWord s)) dictionary)).
Qed.

Lemma keyHandled_frame (key : option word) (s : State) :
  sameScores s (keyHandled cfg dictionary key s) ∧
  keys (keyHandled cfg dictionary key s) = keys s.
Proof.
  unfold keyHandled. destruct key as [k|]; [| done].
  destruct (matchesLetter k) as [c|].
  - unfold pressKey. destruct (wordLength cfg <=? length (activeTiles s)); [done |].
    by destruct (findIdx letterIsNil (tiles s)).
  - destruct (word_eqb k key_Enter).
    + destruct (submitGuessStart_frame s) as (? & _ & ?). done.
    + destruct (word_eqb k key_Delete || word_eqb k key_Backspace); [| done].
      unfold deleteKey. by destruct (findLastIdx isActive (tiles s)).
Qed.

Lemma keyHandled_lettersCapital (key : option word) (s : State) :
  lettersCapital s → lettersCapital (keyHandled cfg dictionary key s).
Proof.
  intros Hcap. unfold keyHandled.
  destruct key as [k|]; [| done].
  destruct (matchesLetter k) as [c|] eqn:Hk.
  - unfold pressKey.
    destruct (wordLength cfg <=? length (activeTiles s)); [done |].
    destruct (findIdx letterIsNil (tiles s)); [| done].
    unfold lettersCapital. simpl. apply forallb_alter; [done |].
    intros x _. simpl. by eapply matchesLetter_capital.
  - destruct (word_eqb k key_Enter).
    + destruct (submitGuessStart_frame s) as (_ & Ht & _).
      unfold lettersCapital. by rewrite Ht.
    + destruct (word_eqb k key_Delete || word_eqb k key_Backspace); [| done].
      unfold deleteKey.
      destruct (findLastIdx isActive (tiles s)); [| done].
      unfold lettersCapital. simpl. by apply forallb_alter.
Qed.

Lemma initialize_settled (r : nat) (x : State) (d : nat) :
  scoreboardOk x →
  scoresKept (mkSession (initialize dictionary r x) d) ∧
  settled (initialize dictionary r x).
Proof.
  intros Hx.
  destruct (initialize_clean dictionary r x Hx) as (Hshow & Hok & _).
  assert (settled (initialize dictionary r x)) as Hset.
  { split; [done |].
    destruct (initialize_spec dictionary r x) as (-> & _ & -> & _).
    by apply updateScore_covers. }
  split; [| done]. split; [done |].
  split; [by apply scoreboardShows_bestShown | done].
Qed.

Lemma initialize_blank (r : nat) (x : State) :
  lettersCapital (initialize dictionary r x).
Proof.
  apply (lettersCapital_blank _ (length (tiles x))).
  destruct (initialize_spec dictionary r x) as (_ & _ & _ & _ & _ & _ & -> & _).
  by rewrite resetTile_all.
Qed.

(** The three outcomes of [#checkWinLose] as a callback: nothing, a win
    that waits for its dance, or a lost round and [#initialize]. *)
Lemma checked_cases (guess : word) (row : list nat) (r : nat) (ss : Session) :
  let ss' := checked cfg dictionary guess row r ss in
  ss' = ss ∨
  (dancing ss' = S (dancing ss) ∧ tiles (current ss') = tiles (current ss) ∧
   scoreboard (current ss') = scoreboard (current ss) ∧
   highscore (current ss') = highscore (current ss)) ∨
  (dancing ss' = dancing ss ∧
   ∃ x, current ss' = initialize dictionary r x ∧
        scoreboard x = scoreboard (current ss)).
Proof.
  unfold checked. cbv zeta. rewrite playAnimation_noCallback.
  destruct (word_eqb guess (targetWord (current ss))).
  - right. left. done.
  - destruct (forallb letterIsString (tiles (current ss))); [| by left].
    right. right. split; [done |]. eexists. split; [done |].
    by destruct (0 <? score (current ss))%Z.
Qed.

Lemma fire_lettersCapital (cb : Callback) (ss : Session) :
  lettersCapital (current ss) → lettersCapital (current (fire cfg dictionary cb ss)).
Proof.
  intros Hcap. destruct cb as [key | tile index | guess row r | r]; simpl.
  - by apply keyHandled_lettersCapital.
  - destruct (flipTile_frame tile index (current ss)) as (_ & _ & Hl & _).
    by eapply lettersCapital_letters.
  - destruct (checked_cases guess row r ss)
      as [-> | [(_ & Ht & _) | (_ & x & -> & _)]]; [done | |].
    + unfold lettersCapital. by rewrite Ht.
    + apply initialize_blank.
  - destruct (dancing ss); [done |]. simpl. apply initialize_blank.
Qed.

Lemma fire_scoresKept (cb : Callback) (ss : Session) :
  scoresKept ss → scoresKept (fire cfg dictionary cb ss).
Proof.
  intros Hkept. destruct ss as [s d].
  destruct cb as [key | tile index | guess row r | r]; simpl.
  - destruct (keyHandled_frame key s) as [Hsame _].
    by eapply scoresKept_same.
  - destruct (flipTile_frame tile index s) as (Hsame & _).
    by eapply scoresKept_same.
  - destruct (checked_cases guess row r (mkSession s d))
      as [-> | [(Hd & _ & Hb & Hh) | (Hd & x & Hx & Hb)]]; [done | |].
    + destruct Hkept as (Hok & Hbest & _).
      unfold scoresKept, scoreboardOk, bestShown in *. simpl in *.
      rewrite Hb, Hh, Hd. done.
    + destruct Hkept as (Hok & _).
      assert (scoreboardOk x) as Hokx
        by (unfold scoreboardOk in *; simpl in *; by rewrite Hb).
      destruct (initialize_settled r x d Hokx) as [(? & ? & _) ?].
      unfold scoresKept. rewrite Hx. done.
  - destruct d as [|n]; [done |].
    destruct Hkept as (Hok & _).
    by destruct (initialize_settled r s n Hok).
Qed.

Lemma newSession_kept (stored : option string) (best : Z) (r : nat) :
  scoresKept (newSession cfg dictionary stored best r) ∧
  lettersCapital (current (newSession cfg dictionary stored best r)).
Proof.
  unfold newSession, newGame. simpl. split.
  - match goal with |- context [initialize dictionary r ?x] =>
      assert (scoreboardOk x) as Hx by (split; simpl; eauto);
      by destruct (initialize_settled r x 0 Hx) end.
  - apply initialize_blank.
Qed.

Lemma fireAll_kept (callbacks : list Callback) (ss : Session) :
  scoresKept ss → scoresKept (fireAll cfg dictionary callbacks ss).
Proof.
  intros H. apply (foldl_invariant scoresKept); [done |].
  intros x cb Hx. by apply fire_scoresKept.
Qed.

(** The flips of a row, one callback each, are [flipTiles] after the
    request of [submitGuessStart]. *)
Lemma fireAll_flips (f : nat → nat) (row : list nat) (s : State) (d : nat) :
  fireAll cfg dictionary (imap (λ index tile, Flipped tile (f index)) row)
          (mkSession s d)
  = mkSession (foldl (λ st p, flipTile p.2 p.1 st) s
                     (imap (λ index tile, (f index, tile)) row)) d.
Proof.
  revert f s. induction row as [|tile row IH]; intros f s; [done |].
  exact (IH (f ∘ S) (flipTile tile (f 0) s)).
Qed.

Lemma fireAll_row (row : list nat) (s : State) (d : nat) :
  fireAll cfg dictionary (imap (λ index tile, Flipped tile index) row)
          (mkSession s d)
  = mkSession (foldl (λ st p, flipTile p.2 p.1 st) s (imap pair row)) d.
Proof. exact (fireAll_flips id row s d). Qed.

Lemma fireAll_cons (cb : Callback) (callbacks : list Callback) (ss : Session) :
  fireAll cfg dictionary (cb :: callbacks) ss
  = fireAll cfg dictionary callbacks (fire cfg dictionary cb ss).
Proof. done. Qed.

Lemma fireAll_app (l1 l2 : list Callback) (ss : Session) :
  fireAll cfg dictionary (l1 ++ l2) ss
  = fireAll cfg dictionary l2 (fireAll cfg dictionary l1 ss).
Proof. apply foldl_app. Qed.

Lemma enter_handled (s : State) :
  accepted cfg dictionary s = true →
  keyHandled cfg dictionary (Some key_Enter) s
  = emit (Animation "flip" (activeTiles s) (delays_betweenFlips cfg)) s.
Proof.
  unfold accepted. intros [H1 H2]%andb_true_iff.
  unfold keyHandled. change (matchesLetter key_Enter) with (@None N).
  change (word_eqb key_Enter key_Enter) with true. cbv iota.
  unfold submitGuessStart. cbv zeta. by rewrite H1, H2.
Qed.

(** [submitGuess] is the session in which the callbacks of a submission
    follow each other with nothing handled in between. *)
Lemma submission_submitGuess (r : nat) (s : State) :
  accepted cfg dictionary s = true →
  current (fireAll cfg dictionary
             (submission (guessedWord s) (activeTiles s) r) (mkSession s 0))
  = submitGuess cfg dictionary r s.
Proof.
  intros Hacc. rewrite (submitGuess_accepted cfg dictionary r s Hacc).
  unfold submission. rewrite fireAll_cons, fireAll_app.
  change (fire cfg dictionary (Handled (Some key_Enter)) (mkSession s 0))
    with (mkSession (keyHandled cfg dictionary (Some key_Enter) s) 0).
  rewrite (enter_handled s Hacc), fireAll_row.
  change (foldl (λ st p, flipTile p.2 p.1 st)
            (emit (Animation "flip" (activeTiles s) (delays_betweenFlips cfg)) s)
            (imap pair (activeTiles s)))
    with (flipTiles cfg s).
  destruct (activeTiles s) as [|tile row] eqn:Hrow; [done |].
  rewrite fireAll_cons, fireAll_cons.
  change (fireAll cfg dictionary [] ?x) with x.
  change (fire cfg dictionary (Checked ?g ?w r) ?x)
    with (checked cfg dictionary g w r x).
  unfold checked, checkWinLose. cbv zeta. cbn [current dancing].
  destruct (word_eqb (guessedWord s) (targetWord (flipTiles cfg s))); [done |].
  by destruct (forallb letterIsString (tiles (flipTiles cfg s))).
Qed.

(** X8.  From the constructor on, whatever number was read from the store
    and whatever callbacks run in whatever order, the best score is not
    below the current score unless a won round awaits the end of its
    dance: [#checkWinLose] raises the score before the dance and
    [#updateScore] runs after it. *)
Theorem best_never_below_current (stored : option string) (best : Z)
    (r : nat) (callbacks : list Callback) :
  let ss := fireAll cfg dictionary callbacks
              (newSession cfg dictionary stored best r) in
  dancing ss = 0 → (score (current ss) ≤ highscore (current ss))%Z.
Proof.
  intros ss Hd.
  destruct (newSession_kept stored best r) as [Hkept _].
  destruct (fireAll_kept callbacks _ Hkept) as (_ & _ & Hset).
  by destruct (Hset Hd).
Qed.

(** X11.  Whatever callbacks a session runs after the constructor, in
    whatever order, the tiles hold only capital letters А..Я: the
    controller forwards а..я and А..Я alone, [pressKey] stores the
    capital, and no other callback writes a letter. *)
Theorem session_letters_capital (stored : option string) (best : Z)
    (r : nat) (callbacks : list Callback) :
  lettersCapital
    (current (fireAll cfg dictionary callbacks
                (newSession cfg dictionary stored best r))).
Proof.
  apply (foldl_invariant (λ ss, lettersCapital (current ss))).
  - by destruct (newSession_kept stored best r).
  - intros x cb Hx. by apply fire_lettersCapital.
Qed.

(** X18.  In every state of a session, whatever callbacks run in whatever
    order, the scoreboard shows the best score; it shows the current score
    too unless a won round awaits the end of its dance, during which the
    score of the last [#updateScore] stays on the board. *)
Theorem scoreboard_shows_scores (stored : option string) (best : Z)
    (r : nat) (callbacks : list Callback) :
  let ss := fireAll cfg dictionary callbacks
              (newSession cfg dictionary stored best r) in
  bestShown (current ss) ∧ (dancing ss = 0 → scoreboardShows (current ss)).
Proof.
  intros ss.
  destruct (newSession_kept stored best r) as [Hkept _].
  destruct (fireAll_kept callbacks _ Hkept) as (_ & Hbest & Hset).
  split; [done |]. intros Hd. by destruct (Hset Hd).
Qed.

End Callbacks.

(** A wrong guess in the fifth row leaves the sixth row free when its
    flips are done, and [submitGuess] with nothing handled in between
    keeps the score at 2.  When the sixth row is typed before the deferred
    [#checkWinLose] of the fifth runs, that call finds the grid full: the
    round is lost and the score falls to 1. *)
Example sixth_row_typed_early :
  isGridFull (flipTiles config fifthRow) = false ∧
  score (submitGuess config sampleDictionary 0 fifthRow) = 2%Z ∧
  let ss := fireAll config sampleDictionary sixthRowTypedEarly
              (mkSession fifthRow 0) in
  score (current ss) = 1%Z ∧
  last (trace (current ss)) = Some (Alert (Lose borka 1) 2000).
Proof. vm_compute. done. Qed.

(** During the dance of a won round the score is above the best score and
    the scoreboard still shows the score of the last [#updateScore]. *)
Example scores_during_dance :
  let ss := fireAll config sampleDictionary borkaDancing
              (newSession config sampleDictionary None 0 0) in
  dancing ss = 1 ∧ score (current ss) = 2%Z ∧ highscore (current ss) = 0%Z ∧
  score_item (scoreboard (current ss)) = Some (templates_score +:+ pretty 0%Z).
Proof. vm_compute. done. Qed.

Lemma best_never_below_current_witness :
  let ss := fireAll config sampleDictionary borkaWon
              (newSession config sampleDictionary None 0 0) in
  (score (current ss) ≤ highscore (current ss))%Z.
Proof.
  apply (best_never_below_current config sampleDictionary None 0 0 borkaWon).
  vm_compute; reflexivity.
Defined.

Lemma scoreboard_shows_scores_witness :
  scoreboardShows
    (current (fireAll config sampleDictionary borkaWon
                (newSession config sampleDictionary None 0 0))).
Proof.
  apply (scoreboard_shows_scores config sampleDictionary None 0 0 borkaWon).
  vm_compute; reflexivity.
Defined.

(** ** The further properties on the sample game *)

Lemma pressKey_appends_letter_witness :
  guessedWord (pressKey config 0x431%N afterKorab)
  = guessedWord afterKorab ++ [toLocaleUpperCase 0x431%N] ∧
  isCapital (toLocaleUpperCase 0x431%N) = true ∧
  length (activeTiles (pressKey config 0x431%N afterKorab))
  = S (length (activeTiles afterKorab)).
Proof.
  apply (pressKey_appends_letter config 0x431%N afterKorab).
  - vm_compute; reflexivity.
  - split; [vm_compute; reflexivity | vm_compute; lia].
  - vm_compute; lia.
  - vm_compute; reflexivity.
Defined.

Lemma pressKey_ignored_when_full_witness :
  pressKey config L_A typedKorab = typedKorab ∧
  guessedWord (pressKey config L_A typedKorab) = guessedWord typedKorab.
Proof.
  apply (pressKey_ignored_when_full config L_A typedKorab).
  left. vm_compute; lia.
Defined.

Lemma deleteKey_removes_last_letter_witness :
  guessedWord (deleteKey typedKorab)
  = take (length (guessedWord typedKorab) - 1) (guessedWord typedKorab).
Proof.
  apply (deleteKey_removes_last_letter config typedKorab).
  split; [vm_compute; reflexivity | vm_compute; lia].
Defined.

Lemma deleteKey_undoes_pressKey_witness :
  deleteKey (pressKey config L_B afterKorab) = afterKorab.
Proof.
  apply (deleteKey_undoes_pressKey config L_B afterKorab).
  - split; [vm_compute; reflexivity | vm_compute; lia].
  - vm_compute; lia.
  - vm_compute; reflexivity.
Defined.

Lemma grid_shape_kept_witness :
  gridOk config
    (run config sampleDictionary (guessWord korab 0 ++ typeWord borko) game0).
Proof.
  apply (grid_shape_kept config sampleDictionary
           (guessWord korab 0 ++ typeWord borko) game0).
  - vm_compute; reflexivity.
  - split; [vm_compute; reflexivity | vm_compute; lia].
  - vm_compute; reflexivity.
Defined.


Lemma round_end_resets_witness :
  tiles (submitGuess config sampleDictionary 1 typedBorka)
  = replicate (length (tiles typedBorka)) blankTile ∧
  targetWord (submitGuess config sampleDictionary 1 typedBorka)
  ∈ sampleDictionary.
Proof.
  destruct (round_end_resets config sampleDictionary 1 typedBorka)
    as (Ht & _ & _ & _ & _ & _ & Hin).
  - vm_compute; reflexivity.
  - split; [exact Ht | apply Hin; vm_compute; lia].
Defined.

Lemma tile_without_key_stays_active_witness :
  0 ∈ activeTiles (flipTiles config typedYery).
Proof.
  apply (tile_without_key_stays_active config typedYery 0
           (mkTile [0x42B%N] (Some 0x42B%N) (Some "active-spot")) 0x42B%N).
  - vm_compute; reflexivity.
  - reflexivity.
  - reflexivity.
  - vm_compute; reflexivity.
Defined.

Lemma all_correct_iff_target_witness :
  Forall (λ st, st = Some Correct) (feedback config typedBorka).
Proof.
  apply (all_correct_iff_target config typedBorka).
  - vm_compute; reflexivity.
  - vm_compute; reflexivity.
  - vm_compute; reflexivity.
  - vm_compute; reflexivity.
Defined.

Lemma eventHandler_letter_case_witness :
  eventHandler config sampleDictionary (Some [0x431%N]) 0 game0
  = eventHandler config sampleDictionary (Some [(0x431 - 0x20)%N]) 0 game0 ∧
  eventHandler config sampleDictionary (Some [97%N]) 0 game0 = game0.
Proof.
  destruct (eventHandler_letter_case config sampleDictionary 0x431%N [97%N]
              0 game0) as [Hcase Hother].
  split.
  - apply Hcase. vm_compute. split; discriminate.
  - apply Hother; [reflexivity | discriminate..].
Defined.

Lemma createArray_elements_witness :
  createArray 3 (ElementFunction (λ index, index * 2)) !! 2
  = Some (Some (fillerAt (ElementFunction (λ index, index * 2)) 2)).
Proof.
  apply (createArray_elements 3 (ElementFunction (λ index, index * 2))).
  lia.
Defined.

Lemma seedRandom_unit_interval_and_cache_witness :
  (0 ≤ (seedRandom (Some 42%Z) 0 ∅).1 < lcg_m)%Z.
Proof.
  apply (seedRandom_unit_interval_and_cache (Some 42%Z) 0 ∅).
  - simpl. lia.
  - vm_compute. reflexivity.
  - intros sd _. apply lookup_empty.
Defined.
